(** * Arena: match state machine and alliance-station lifecycle

    A shallow embedding of [arena.go] (package [main]) and the properties
    of its operations: team assignment, match loading, the start-of-match
    readiness check, reset, the periodic [Update] step and the status
    packet dispatch.

    Conventions of the embedding.
    - A Go [int] is a [Z]; [MatchState] is an [int] in the source and a
      [Z] here, with the [iota] constants written out.
    - [map[string]*AllianceStation] is a [gmap string AllianceStation].
      Every station is allocated by its own [new(AllianceStation)], so no
      two keys alias and the pointer is modelled by the value it points to.
      A [range] over the map visits the keys in an order chosen by the Go
      runtime; that order is an explicit argument ([order]) of the
      functions that iterate.
    - A nil pointer is [None].  Dereferencing the nil station returned by
      a lookup of a missing key panics; [ResetMatch] returns [None] there.
    - An [error] result is [option error], [None] for [nil].
    - [time.Time] is a number of nanoseconds; the clock readings taken
      during a call are arguments of that call. The [float64] returned by
      [Duration.Seconds] is modelled by the exact rational.
    - The collaborators that are not part of [arena.go] (the team store,
      the connection constructor, [Close] and [Update] of a connection)
      are the fields of the class [Collaborators]; they act on an abstract
      [World].  Every call to one of them is recorded in a log. *)

From stdpp Require Import gmap strings list fin_maps pretty.
From Stdlib Require Import ZArith QArith Lia.

Local Open Scope Z_scope.

(** ** Constants *)

(** Loop and match timing constants. *)
Definition arenaLoopPeriodMs : Z := 10.
Definition dsPacketPeriodMs : Z := 250.
Definition autoDurationSec : Z := 10.
Definition pauseDurationSec : Z := 1.
Definition teleopDurationSec : Z := 140.
Definition endgameTimeLeftSec : Z := 30.

(** Progression of match states ([iota] from 0). *)
Definition PRE_MATCH : Z := 0.
Definition START_MATCH : Z := 1.
Definition AUTO_PERIOD : Z := 2.
Definition PAUSE_PERIOD : Z := 3.
Definition TELEOP_PERIOD : Z := 4.
Definition ENDGAME_PERIOD : Z := 5.
Definition POST_MATCH : Z := 6.

(** The keys [Setup] creates, in creation order. *)
Definition stationKeys : list string :=
  ["R1"; "R2"; "R3"; "B1"; "B2"; "B3"]%string.

(** ** Errors *)

(** One constructor for each [fmt.Errorf] of the source, and one for an
    error handed back by a collaborator. *)
Inductive error : Type :=
| ErrInvalidStation (station : string)
| ErrInvalidTeam (teamId : Z)
| ErrLoadInProgress
| ErrStartInProgress
| ErrEmergencyStop
| ErrRobotsNotReady
| ErrAbortNotInProgress
| ErrResetInProgress
| ErrCollaborator (msg : string).

(** The text of the error, as the source formats it. *)
Definition Error (e : error) : string :=
  match e with
  | ErrInvalidStation station =>
      "Invalid alliance station '" +:+ station +:+ "'."
  | ErrInvalidTeam teamId =>
      "Invalid team number '" +:+ pretty teamId +:+ "'."
  | ErrLoadInProgress =>
      "Cannot load match while there is a match still in progress or with results pending."
  | ErrStartInProgress =>
      "Cannot start match while there is a match still in progress or with results pending."
  | ErrEmergencyStop =>
      "Cannot start match while an emergency stop is active."
  | ErrRobotsNotReady =>
      "Cannot start match until all robots are connected or bypassed."
  | ErrAbortNotInProgress =>
      "Cannot abort match when it is not in progress."
  | ErrResetInProgress =>
      "Cannot reset match while it is in progress."
  | ErrCollaborator msg => msg
  end.

(** The logical error kinds of the specification. *)
Inductive error_kind : Type :=
| InvalidStation | UnknownTeam | MatchInProgress | NotInProgress
| EmergencyStopActive | RobotNotReady | ConnectionLayer.

Definition kind_of (e : error) : error_kind :=
  match e with
  | ErrInvalidStation _ => InvalidStation
  | ErrInvalidTeam _ => UnknownTeam
  | ErrLoadInProgress | ErrStartInProgress | ErrResetInProgress => MatchInProgress
  | ErrEmergencyStop => EmergencyStopActive
  | ErrRobotsNotReady => RobotNotReady
  | ErrAbortNotInProgress => NotInProgress
  | ErrCollaborator _ => ConnectionLayer
  end.

(** ** Data model *)

(** Modelled from the spec: the types [Team], [Match] and
    [DriverStationConnection] are declared outside [arena.go]; the records
    below hold the fields that [arena.go] reads or writes. *)
Record Team : Type := mkTeam { Id : Z }.

Record DriverStationStatus_t : Type := mkStatus { RobotLinked : bool }.

Record DriverStationConnection : Type := mkConn {
  TeamId : Z;
  Auto : bool;
  Enabled : bool;
  DriverStationStatus : DriverStationStatus_t
}.

Record Match : Type := mkMatch {
  Type_ : string;
  Red1 : Z; Red2 : Z; Red3 : Z;
  Blue1 : Z; Blue2 : Z; Blue3 : Z;
  Status : string
}.

Record AllianceStation : Type := mkStation {
  DsConn : option DriverStationConnection;
  EmergencyStop : bool;
  Bypass : bool;
  team : option Team
}.

(** Nanoseconds. *)
Definition Time : Type := Z.

Record Arena : Type := mkArena {
  AllianceStations : gmap string AllianceStation;
  MatchState : Z;
  CanStartMatch : bool;
  currentMatch : option Match;
  matchStartTime : Time;
  lastDsPacketTime : Time
}.

#[global] Instance error_eq_dec : EqDecision error.
Proof. solve_decision. Defined.
#[global] Instance Team_eq_dec : EqDecision Team.
Proof. solve_decision. Defined.
#[global] Instance Status_eq_dec : EqDecision DriverStationStatus_t.
Proof. solve_decision. Defined.
#[global] Instance Conn_eq_dec : EqDecision DriverStationConnection.
Proof. solve_decision. Defined.
#[global] Instance Station_eq_dec : EqDecision AllianceStation.
Proof. solve_decision. Defined.

(** The zero values of the structs. *)
Definition newAllianceStation : AllianceStation :=
  {| DsConn := None; EmergencyStop := false; Bypass := false; team := None |}.

Definition zeroArena : Arena :=
  {| AllianceStations := ∅; MatchState := 0; CanStartMatch := false;
     currentMatch := None; matchStartTime := 0; lastDsPacketTime := 0 |}.

(** [&Match{Type: "test"}] *)
Definition testMatch : Match :=
  {| Type_ := "test"; Red1 := 0; Red2 := 0; Red3 := 0;
     Blue1 := 0; Blue2 := 0; Blue3 := 0; Status := EmptyString |}.

(** Field assignments. *)
Definition set_DsConn (c : option DriverStationConnection) (s : AllianceStation) :=
  {| DsConn := c; EmergencyStop := EmergencyStop s; Bypass := Bypass s; team := team s |}.
Definition set_team (t : option Team) (s : AllianceStation) :=
  {| DsConn := DsConn s; EmergencyStop := EmergencyStop s; Bypass := Bypass s; team := t |}.
Definition set_Bypass (b : bool) (s : AllianceStation) :=
  {| DsConn := DsConn s; EmergencyStop := EmergencyStop s; Bypass := b; team := team s |}.
Definition set_EmergencyStop (b : bool) (s : AllianceStation) :=
  {| DsConn := DsConn s; EmergencyStop := b; Bypass := Bypass s; team := team s |}.

Definition set_Auto (b : bool) (c : DriverStationConnection) :=
  {| TeamId := TeamId c; Auto := b; Enabled := Enabled c;
     DriverStationStatus := DriverStationStatus c |}.
Definition set_Enabled (b : bool) (c : DriverStationConnection) :=
  {| TeamId := TeamId c; Auto := Auto c; Enabled := b;
     DriverStationStatus := DriverStationStatus c |}.

Definition set_AllianceStations (m : gmap string AllianceStation) (a : Arena) :=
  {| AllianceStations := m; MatchState := MatchState a;
     CanStartMatch := CanStartMatch a; currentMatch := currentMatch a;
     matchStartTime := matchStartTime a; lastDsPacketTime := lastDsPacketTime a |}.
Definition set_MatchState (s : Z) (a : Arena) :=
  {| AllianceStations := AllianceStations a; MatchState := s;
     CanStartMatch := CanStartMatch a; currentMatch := currentMatch a;
     matchStartTime := matchStartTime a; lastDsPacketTime := lastDsPacketTime a |}.
Definition set_CanStartMatch (b : bool) (a : Arena) :=
  {| AllianceStations := AllianceStations a; MatchState := MatchState a;
     CanStartMatch := b; currentMatch := currentMatch a;
     matchStartTime := matchStartTime a; lastDsPacketTime := lastDsPacketTime a |}.
Definition set_currentMatch (m : option Match) (a : Arena) :=
  {| AllianceStations := AllianceStations a; MatchState := MatchState a;
     CanStartMatch := CanStartMatch a; currentMatch := m;
     matchStartTime := matchStartTime a; lastDsPacketTime := lastDsPacketTime a |}.
Definition set_matchStartTime (t : Time) (a : Arena) :=
  {| AllianceStations := AllianceStations a; MatchState := MatchState a;
     CanStartMatch := CanStartMatch a; currentMatch := currentMatch a;
     matchStartTime := t; lastDsPacketTime := lastDsPacketTime a |}.
Definition set_lastDsPacketTime (t : Time) (a : Arena) :=
  {| AllianceStations := AllianceStations a; MatchState := MatchState a;
     CanStartMatch := CanStartMatch a; currentMatch := currentMatch a;
     matchStartTime := matchStartTime a; lastDsPacketTime := t |}.

(** [arena.AllianceStations[station].f = v] for a key that is present:
    the station behind the pointer is updated in place. *)
Definition with_station (station : string)
    (f : AllianceStation → AllianceStation) (a : Arena) : Arena :=
  set_AllianceStations (alter f station (AllianceStations a)) a.

(** ** Collaborators *)

(** Modelled from the spec: [db.GetTeamById], [NewDriverStationConnection]
    and the methods [Close] and [Update] of a connection are implemented
    outside [arena.go].  Each takes and returns the state of the outside
    world, which holds whatever a connection has besides the fields that
    [arena.go] reads or writes; an error of a collaborator is its message.
    The two functions that return a Go pair [(value, error)] return both
    components, since the source stores the first one without looking at
    the second. *)
Class Collaborators : Type := {
  World : Type;
  db_GetTeamById : Z → World → (option Team * option string) * World;
  NewDriverStationConnection :
    Z → string → World → (option DriverStationConnection * option string) * World;
  ds_Close : DriverStationConnection → World → option string * World;
  ds_Update : DriverStationConnection → World → option string * World
}.

(** The calls made to the collaborators. [station] is the key of the slot
    whose connection receives the call. *)
Inductive Call : Type :=
| CallGetTeamById (teamId : Z)
| CallNewDriverStationConnection (teamId : Z) (station : string)
| CallClose (station : string) (c : DriverStationConnection)
| CallUpdate (station : string) (c : DriverStationConnection).

#[global] Instance Call_eq_dec : EqDecision Call.
Proof. solve_decision. Defined.

(** ** Operations *)

Section Operations.
Context {C : Collaborators}.

(** The outside world together with the log of calls, newest first. *)
Record Env : Type := mkEnv { world : World; calls : list Call }.

(** Computations that call collaborators. *)
Definition M (A : Type) : Type := Env → A * Env.

Definition ret {A} (x : A) : M A := λ env, (x, env).
Definition bind {A B} (m : M A) (k : A → M B) : M B :=
  λ env, let '(x, env') := m env in k x env'.

Notation "'let*' x := m 'in' k" := (bind m (λ x, k))
  (at level 10, x pattern, m at level 100, k at level 200, only parsing).

Definition call_GetTeamById (teamId : Z) : M (option Team * option string) :=
  λ env, let '(r, w) := db_GetTeamById teamId (world env) in
         (r, mkEnv w (CallGetTeamById teamId :: calls env)).

Definition call_NewDriverStationConnection (teamId : Z) (station : string)
    : M (option DriverStationConnection * option string) :=
  λ env, let '(r, w) := NewDriverStationConnection teamId station (world env) in
         (r, mkEnv w (CallNewDriverStationConnection teamId station :: calls env)).

Definition call_Close (station : string) (c : DriverStationConnection)
    : M (option string) :=
  λ env, let '(r, w) := ds_Close c (world env) in
         (r, mkEnv w (CallClose station c :: calls env)).

Definition call_Update (station : string) (c : DriverStationConnection)
    : M (option string) :=
  λ env, let '(r, w) := ds_Update c (world env) in
         (r, mkEnv w (CallUpdate station c :: calls env)).

(** [f] then, unless it returned an error, [g]. *)
Definition andThen (f g : Arena → M (option error * Arena))
    : Arena → M (option error * Arena) :=
  λ arena,
    let* r := f arena in
    match r with
    | (Some err, arena') => ret (Some err, arena')
    | (None, arena') => g arena'
    end.

(** The part of [AssignTeam] after the previous connection, if any, has
    been closed. *)
Definition AssignTeam_load (teamId : Z) (station : string) (arena : Arena)
    : M (option error * Arena) :=
  (* Leave the station empty if the team number is zero. *)
  if teamId =? 0 then ret (None, arena)
  else
    (* Load the team model. Raise an error if a team doesn't exist. *)
    let* r := call_GetTeamById teamId in
    match r with
    | (_, Some err) => ret (Some (ErrCollaborator err), arena)
    | (None, None) => ret (Some (ErrInvalidTeam teamId), arena)
    | (Some t, None) =>
        let arena1 := with_station station (set_team (Some t)) arena in
        let* r := call_NewDriverStationConnection (Id t) station in
        let arena2 := with_station station (set_DsConn (fst r)) arena1 in
        match snd r with
        | Some err => ret (Some (ErrCollaborator err), arena2)
        | None => ret (None, arena2)
        end
    end.

(** Loads a team into an alliance station, cleaning up the previous team
    there if there is one. *)
Definition AssignTeam (teamId : Z) (station : string) (arena : Arena)
    : M (option error * Arena) :=
  match AllianceStations arena !! station with
  | None =>
      (* Reject invalid station values. *)
      ret (Some (ErrInvalidStation station), arena)
  | Some st =>
      match DsConn st with
      | Some dsConn =>
          (* Do nothing if the station is already assigned to the
             requested team. *)
          if TeamId dsConn =? teamId then ret (None, arena)
          else
            let* err := call_Close station dsConn in
            match err with
            | Some e => ret (Some (ErrCollaborator e), arena)
            | None =>
                AssignTeam_load teamId station
                  (with_station station (set_DsConn None)
                     (with_station station (set_team None) arena))
            end
      | None => AssignTeam_load teamId station arena
      end
  end.

(** Sets up the arena for the given match. *)
Definition LoadMatch (m : Match) (arena : Arena) : M (option error * Arena) :=
  if negb (MatchState arena =? PRE_MATCH) then
    ret (Some ErrLoadInProgress, arena)
  else
    andThen (AssignTeam (Red1 m) "R1")
   (andThen (AssignTeam (Red2 m) "R2")
   (andThen (AssignTeam (Red3 m) "R3")
   (andThen (AssignTeam (Blue1 m) "B1")
   (andThen (AssignTeam (Blue2 m) "B2")
            (AssignTeam (Blue3 m) "B3")))))
      (set_currentMatch (Some m) arena).

(** Sets a new test match as the current match. *)
Definition LoadTestMatch (arena : Arena) : M (option error * Arena) :=
  LoadMatch testMatch arena.

(** Sets the arena to its initial state. The error of [LoadTestMatch] is
    dropped, as in the source. *)
Definition Setup (arena : Arena) : M Arena :=
  let stations : gmap string AllianceStation :=
    <["B3" := newAllianceStation]>
   (<["B2" := newAllianceStation]>
   (<["B1" := newAllianceStation]>
   (<["R3" := newAllianceStation]>
   (<["R2" := newAllianceStation]>
   (<["R1" := newAllianceStation]> ∅))))) in
  let arena1 := set_MatchState PRE_MATCH (set_AllianceStations stations arena) in
  let* r := LoadTestMatch arena1 in
  ret (snd r).

(** The body of the loop of [CheckCanStartMatch] for one station. *)
Definition checkStation (allianceStation : AllianceStation) : option error :=
  if EmergencyStop allianceStation then Some ErrEmergencyStop
  else if negb (Bypass allianceStation) then
    match DsConn allianceStation with
    | None => Some ErrRobotsNotReady
    | Some dsConn =>
        if negb (RobotLinked (DriverStationStatus dsConn))
        then Some ErrRobotsNotReady else None
    end
  else None.

(** The loop of [CheckCanStartMatch], visiting the keys in [order]. *)
Fixpoint checkStations (stations : gmap string AllianceStation)
    (order : list string) : option error :=
  match order with
  | [] => None
  | k :: rest =>
      match stations !! k with
      | None => checkStations stations rest
      | Some st =>
          match checkStation st with
          | Some err => Some err
          | None => checkStations stations rest
          end
      end
  end.

(** Returns nil if the match can be started, and an error otherwise. *)
Definition CheckCanStartMatch (order : list string) (arena : Arena) : option error :=
  if negb (MatchState arena =? PRE_MATCH) then Some ErrStartInProgress
  else checkStations (AllianceStations arena) order.

(** Starts the match if all conditions are met. *)
Definition StartMatch (order : list string) (arena : Arena) : option error * Arena :=
  match CheckCanStartMatch order arena with
  | None => (None, set_MatchState START_MATCH arena)
  | Some err => (Some err, arena)
  end.

(** Kills the current match if it is underway. *)
Definition AbortMatch (arena : Arena) : option error * Arena :=
  if (MatchState arena =? PRE_MATCH) || (MatchState arena =? POST_MATCH)
  then (Some ErrAbortNotInProgress, arena)
  else (None, set_MatchState POST_MATCH arena).

(** [arena.AllianceStations[station].Bypass = false]; [None] is the panic
    of the nil dereference when the key is missing. *)
Definition clearBypass (station : string) (arena : Arena) : option Arena :=
  match AllianceStations arena !! station with
  | None => None
  | Some _ => Some (with_station station (set_Bypass false) arena)
  end.

(** Clears out the match and resets the arena state unless there is a
    match underway. *)
Definition ResetMatch (arena : Arena) : option (option error * Arena) :=
  if negb (MatchState arena =? POST_MATCH) && negb (MatchState arena =? PRE_MATCH)
  then Some (Some ErrResetInProgress, arena)
  else
    a1 ← clearBypass "R1" (set_MatchState PRE_MATCH arena);
    a2 ← clearBypass "R2" a1;
    a3 ← clearBypass "R3" a2;
    a4 ← clearBypass "B1" a3;
    a5 ← clearBypass "B2" a4;
    a6 ← clearBypass "B3" a5;
    Some (None, a6).

(** *** Time *)

(** [Duration.Seconds]: a duration in nanoseconds as a number of seconds. *)
Definition Seconds (d : Z) : Q := Qmake d 1000000000.

(** [x >= y] on the numbers of seconds. *)
Definition geQ (x y : Q) : bool := Qle_bool y x.

(** What one call of [Update] takes from the Go runtime: the order of
    each of its two [range] loops and the reading of each of its clock
    accesses. *)
Record Tick : Type := mkTick {
  checkOrder : list string;  (* the range of CheckCanStartMatch *)
  nowMatchTime : Time;       (* time.Since in MatchTimeSec *)
  nowStart : Time;           (* time.Now() stored in matchStartTime *)
  nowSince : Time;           (* time.Since(arena.lastDsPacketTime) *)
  sendOrder : list string;   (* the range of sendDsPacket *)
  nowSent : Time             (* time.Now() stored in lastDsPacketTime *)
}.

(** Returns the fractional number of seconds since the start of the match. *)
Definition MatchTimeSec (now : Time) (arena : Arena) : Q :=
  if (MatchState arena =? PRE_MATCH) || (MatchState arena =? POST_MATCH)
  then inject_Z 0
  else Seconds (now - matchStartTime arena).

(** The body of the loop of [sendDsPacket] for the station at [k]. The
    error of [Update] is dropped, as in the source. *)
Definition sendDsPacketTo (auto enabled : bool) (k : string) (arena : Arena)
    : M Arena :=
  match AllianceStations arena !! k with
  | None => ret arena
  | Some allianceStation =>
      match DsConn allianceStation with
      | None => ret arena
      | Some dsConn =>
          let c1 := set_Auto auto dsConn in
          let c2 :=
            set_Enabled
              (enabled && negb (EmergencyStop allianceStation)
                       && negb (Bypass allianceStation)) c1 in
          let arena' := with_station k (set_DsConn (Some c2)) arena in
          let* _ := call_Update k c2 in
          ret arena'
      end
  end.

Fixpoint sendDsPacketLoop (auto enabled : bool) (order : list string)
    (arena : Arena) : M Arena :=
  match order with
  | [] => ret arena
  | k :: rest =>
      let* arena' := sendDsPacketTo auto enabled k arena in
      sendDsPacketLoop auto enabled rest arena'
  end.

Definition sendDsPacket (order : list string) (sent : Time)
    (auto enabled : bool) (arena : Arena) : M Arena :=
  let* arena' := sendDsPacketLoop auto enabled order arena in
  ret (set_lastDsPacketTime sent arena').

(** The [switch] of [Update]: the arena after it and the values of
    [auto], [enabled] and [sendDsPacket]. *)
Definition updateState (tk : Tick) (matchTimeSec : Q) (arena : Arena)
    : Arena * bool * bool * bool :=
  if MatchState arena =? PRE_MATCH then
    (arena, true, false, false)
  else if MatchState arena =? START_MATCH then
    (set_matchStartTime (nowStart tk) (set_MatchState AUTO_PERIOD arena),
     true, true, true)
  else if MatchState arena =? AUTO_PERIOD then
    if geQ matchTimeSec (inject_Z autoDurationSec) then
      (set_MatchState PAUSE_PERIOD arena, false, false, true)
    else (arena, true, true, false)
  else if MatchState arena =? PAUSE_PERIOD then
    if geQ matchTimeSec (inject_Z (autoDurationSec + pauseDurationSec)) then
      (set_MatchState TELEOP_PERIOD arena, false, true, true)
    else (arena, false, false, false)
  else if MatchState arena =? TELEOP_PERIOD then
    if geQ matchTimeSec
         (inject_Z (autoDurationSec + pauseDurationSec + teleopDurationSec
                    - endgameTimeLeftSec)) then
      (set_MatchState ENDGAME_PERIOD arena, false, true, false)
    else (arena, false, true, false)
  else if MatchState arena =? ENDGAME_PERIOD then
    if geQ matchTimeSec
         (inject_Z (autoDurationSec + pauseDurationSec + teleopDurationSec)) then
      (set_MatchState POST_MATCH arena, false, false, true)
    else (arena, false, true, false)
  else
    (arena, false, false, false).

(** Performs a single iteration of checking inputs and timers and setting
    outputs accordingly to control the flow of a match. *)
Definition Update (tk : Tick) (arena : Arena) : M Arena :=
  let arena0 :=
    set_CanStartMatch
      (match CheckCanStartMatch (checkOrder tk) arena with
       | None => true | Some _ => false end) arena in
  (* Decide what state the robots need to be in, depending on where we
     are in the match. *)
  let matchTimeSec := MatchTimeSec (nowMatchTime tk) arena0 in
  let '(arena1, auto, enabled, sendPacket) := updateState tk matchTimeSec arena0 in
  (* Send a packet if at a period transition point or if it's been long
     enough since the last one. *)
  if sendPacket
     || geQ (Qmult (Seconds (nowSince tk - lastDsPacketTime arena1)) (inject_Z 1000))
            (inject_Z dsPacketPeriodMs)
  then sendDsPacket (sendOrder tk) (nowSent tk) auto enabled arena1
  else ret arena1.

(** The arenas after each of a series of calls of [Update], first to
    last. *)
Fixpoint run (tks : list Tick) (arena : Arena) (env : Env) : list Arena :=
  match tks with
  | [] => []
  | tk :: rest =>
      let '(arena', env') := Update tk arena env in
      arena' :: run rest arena' env'
  end.

End Operations.

(** ** Concrete arenas and collaborators *)

(** A simulated outside world: the team numbers the store knows, and
    whether constructing or closing a connection fails. *)
Record SimWorld : Type := mkSim {
  simTeams : list Z;
  simDialFails : bool;
  simCloseFails : bool
}.

Definition sim : Collaborators := {|
  World := SimWorld;
  db_GetTeamById := λ teamId w,
    (if bool_decide (teamId ∈ simTeams w)
     then (Some (mkTeam teamId), None) else (None, None), w);
  NewDriverStationConnection := λ teamId station w,
    (if simDialFails w then (None, Some "dial failed"%string)
     else (Some (mkConn teamId false false (mkStatus false)), None), w);
  ds_Close := λ c w,
    (if simCloseFails w then Some "close failed"%string else None, w);
  ds_Update := λ c w, (None, w)
|}.

Definition simEnv (w : SimWorld) : @Env sim := @mkEnv sim w [].

(** An arena with the six stations given, in the order of [stationKeys]. *)
Definition arenaWith (r1 r2 r3 b1 b2 b3 : AllianceStation) (state : Z) : Arena :=
  {| AllianceStations :=
       <["B3" := b3]> (<["B2" := b2]> (<["B1" := b1]>
      (<["R3" := r3]> (<["R2" := r2]> (<["R1" := r1]> ∅)))));
     MatchState := state; CanStartMatch := false;
     currentMatch := Some testMatch;
     matchStartTime := 0; lastDsPacketTime := 0 |}.

Definition bypassed : AllianceStation := set_Bypass true newAllianceStation.
Definition stopped : AllianceStation := set_EmergencyStop true newAllianceStation.

(** A connection for [teamId], linked or not. *)
Definition connFor (teamId : Z) (linked : bool) : DriverStationConnection :=
  mkConn teamId false false (mkStatus linked).

(** A station bound to [teamId] with a connection. *)
Definition boundTo (teamId : Z) (linked : bool) : AllianceStation :=
  {| DsConn := Some (connFor teamId linked); EmergencyStop := false;
     Bypass := false; team := Some (mkTeam teamId) |}.

Definition emptyArena (state : Z) : Arena :=
  arenaWith newAllianceStation newAllianceStation newAllianceStation
            newAllianceStation newAllianceStation newAllianceStation state.

Definition bypassedArena (state : Z) : Arena :=
  arenaWith bypassed bypassed bypassed bypassed bypassed bypassed state.

(** ** Well-formed arenas and iteration orders *)

(** The arena has exactly the six stations of [Setup]. *)
Definition six_stations (arena : Arena) : Prop :=
  dom (AllianceStations arena) = list_to_set stationKeys.

(** [order] is an order in which a [range] may visit the stations: an
    enumeration of the keys of the map without repetition. *)
Definition range_order (order : list string) (arena : Arena) : Prop :=
  order ≡ₚ (map_to_list (AllianceStations arena)).*1.

(** A station is ready when it is bypassed or its robot is linked. *)
Definition ready (st : AllianceStation) : Prop :=
  Bypass st = false →
  ∃ dsConn, DsConn st = Some dsConn ∧ RobotLinked (DriverStationStatus dsConn) = true.

(** The condition under which a match may start. *)
Definition can_start (arena : Arena) : Prop :=
  MatchState arena = PRE_MATCH
  ∧ (∀ k st, AllianceStations arena !! k = Some st → EmergencyStop st = false)
  ∧ (∀ k st, AllianceStations arena !! k = Some st →
       Bypass st = false →
       ∃ dsConn, DsConn st = Some dsConn
                 ∧ RobotLinked (DriverStationStatus dsConn) = true).

(** A slot is consistent when it holds a team only together with a
    connection. *)
Definition consistent (st : AllianceStation) : Prop :=
  DsConn st = None → team st = None.

(** The slot after its connection has been closed and released. *)
Definition released (st : AllianceStation) : AllianceStation :=
  set_DsConn None (set_team None st).

(** The period of the match at [t] seconds after its start, by the
    thresholds 10, 11, 121 and 151. *)
Definition period_at (t : Q) : Z :=
  if geQ t (inject_Z 151) then POST_MATCH
  else if geQ t (inject_Z 121) then ENDGAME_PERIOD
  else if geQ t (inject_Z 11) then TELEOP_PERIOD
  else if geQ t (inject_Z 10) then PAUSE_PERIOD
  else AUTO_PERIOD.

(** The match time that [Update] computes at [tk] for a match started at
    [start]. *)
Definition elapsed (start : Time) (tk : Tick) : Q :=
  Seconds (nowMatchTime tk - start).

(** A series of periods that never goes back and never skips a period,
    starting from [prev]. *)
Fixpoint paced (prev : Z) (periods : list Z) : Prop :=
  match periods with
  | [] => True
  | p :: rest => (prev ≤ p ≤ prev + 1) ∧ paced p rest
  end.

(** A tick at which the clock reads [now] at each access, the stations
    being visited in the order of [stationKeys]. *)
Definition tickAt (now : Time) : Tick :=
  {| checkOrder := stationKeys; nowMatchTime := now; nowStart := now;
     nowSince := now; sendOrder := stationKeys; nowSent := now |}.

(** Clock readings that never go back and are at most one second apart,
    starting from [prev]. *)
Fixpoint steady (prev : Time) (times : list Time) : Prop :=
  match times with
  | [] => True
  | t :: rest => (prev ≤ t ≤ prev + 1000000000) ∧ steady t rest
  end.

(** What an assignment of a team leaves alone, and the errors it cannot
    return. *)
Definition assignment {C : Collaborators}
    (f : Arena → M (option error * Arena)) : Prop :=
  ∀ arena env,
    MatchState (f arena env).1.2 = MatchState arena
    ∧ currentMatch (f arena env).1.2 = currentMatch arena
    ∧ (six_stations arena → six_stations (f arena env).1.2)
    ∧ (∀ e, (f arena env).1.1 = Some e → kind_of e ≠ MatchInProgress).

(** The slot at [k] holds a connection that is dispatched as [tgt], and
    is stopped or bypassed. *)
Definition held (auto : bool) (tgt : DriverStationConnection) (k : string)
    (arena : Arena) : Prop :=
  ∃ st c, AllianceStations arena !! k = Some st
          ∧ DsConn st = Some c
          ∧ (EmergencyStop st = true ∨ Bypass st = true)
          ∧ set_Enabled false (set_Auto auto c) = tgt.

(** The transition table of the specification: the state after a tick in
    state [s] at [t] seconds of match time. *)
Definition next_state (s : Z) (t : Q) : Z :=
  if s =? START_MATCH then AUTO_PERIOD
  else if s =? AUTO_PERIOD then
    if geQ t (inject_Z 10) then PAUSE_PERIOD else AUTO_PERIOD
  else if s =? PAUSE_PERIOD then
    if geQ t (inject_Z 11) then TELEOP_PERIOD else PAUSE_PERIOD
  else if s =? TELEOP_PERIOD then
    if geQ t (inject_Z 121) then ENDGAME_PERIOD else TELEOP_PERIOD
  else if s =? ENDGAME_PERIOD then
    if geQ t (inject_Z 151) then POST_MATCH else ENDGAME_PERIOD
  else s.

(** The stations that [Setup] creates. *)
Definition newStations : gmap string AllianceStation :=
  <["B3" := newAllianceStation]>
 (<["B2" := newAllianceStation]>
 (<["B1" := newAllianceStation]>
 (<["R3" := newAllianceStation]>
 (<["R2" := newAllianceStation]>
 (<["R1" := newAllianceStation]> ∅))))).

(** ** Substitution and the next match *)

(** [arena.currentMatch.Red1 = teamId] and its five siblings. *)
Definition set_Red1 (t : Z) (m : Match) : Match :=
  {| Type_ := Type_ m; Red1 := t; Red2 := Red2 m; Red3 := Red3 m;
     Blue1 := Blue1 m; Blue2 := Blue2 m; Blue3 := Blue3 m; Status := Status m |}.
Definition set_Red2 (t : Z) (m : Match) : Match :=
  {| Type_ := Type_ m; Red1 := Red1 m; Red2 := t; Red3 := Red3 m;
     Blue1 := Blue1 m; Blue2 := Blue2 m; Blue3 := Blue3 m; Status := Status m |}.
Definition set_Red3 (t : Z) (m : Match) : Match :=
  {| Type_ := Type_ m; Red1 := Red1 m; Red2 := Red2 m; Red3 := t;
     Blue1 := Blue1 m; Blue2 := Blue2 m; Blue3 := Blue3 m; Status := Status m |}.
Definition set_Blue1 (t : Z) (m : Match) : Match :=
  {| Type_ := Type_ m; Red1 := Red1 m; Red2 := Red2 m; Red3 := Red3 m;
     Blue1 := t; Blue2 := Blue2 m; Blue3 := Blue3 m; Status := Status m |}.
Definition set_Blue2 (t : Z) (m : Match) : Match :=
  {| Type_ := Type_ m; Red1 := Red1 m; Red2 := Red2 m; Red3 := Red3 m;
     Blue1 := Blue1 m; Blue2 := t; Blue3 := Blue3 m; Status := Status m |}.
Definition set_Blue3 (t : Z) (m : Match) : Match :=
  {| Type_ := Type_ m; Red1 := Red1 m; Red2 := Red2 m; Red3 := Red3 m;
     Blue1 := Blue1 m; Blue2 := Blue2 m; Blue3 := t; Status := Status m |}.

(** The [switch station] of [SubstituteTeam]; a key that is none of the
    six falls through. *)
Definition substituteInMatch (station : string) (teamId : Z) (m : Match) : Match :=
  if String.eqb station "R1" then set_Red1 teamId m
  else if String.eqb station "R2" then set_Red2 teamId m
  else if String.eqb station "R3" then set_Red3 teamId m
  else if String.eqb station "B1" then set_Blue1 teamId m
  else if String.eqb station "B2" then set_Blue2 teamId m
  else if String.eqb station "B3" then set_Blue3 teamId m
  else m.

(** The errors of [SubstituteTeam]: its own [fmt.Errorf], or the error of
    [AssignTeam]. *)
Inductive substitute_error : Type :=
| ErrSubstitutionNotAllowed
| ErrAssignTeam (err : error).

Definition SubstituteError (e : substitute_error) : string :=
  match e with
  | ErrSubstitutionNotAllowed =>
      "Can only substitute teams for test and practice matches."
  | ErrAssignTeam err => Error err
  end.

(** Modelled from the spec: [db.GetMatchesByType] is implemented outside
    [arena.go]; it returns the matches of a type in the order of the store,
    or an error. *)
Class MatchStore {C : Collaborators} : Type := {
  db_GetMatchesByType : string → World → (list Match * option string) * World
}.

Section MatchRecord.
Context {C : Collaborators} {S : MatchStore}.

(** Assigns the given team to the given station, also substituting it
    into the match record. [None] is the panic of the nil dereference when
    no match is current. *)
Definition SubstituteTeam (teamId : Z) (station : string) (arena : Arena)
    : option (M (option substitute_error * Arena)) :=
  match currentMatch arena with
  | None => None
  | Some cur =>
      Some
        (if negb (String.eqb (Type_ cur) "test")
            && negb (String.eqb (Type_ cur) "practice")
         then ret (Some ErrSubstitutionNotAllowed, arena)
         else
           bind (AssignTeam teamId station arena) (λ r,
             match r with
             | (Some err, arena') => ret (Some (ErrAssignTeam err), arena')
             | (None, arena') =>
                 ret (None,
                      set_currentMatch
                        (substituteInMatch station teamId <$> currentMatch arena')
                        arena')
             end))
  end.

(** The loop of [LoadNextMatch]: the first match that is not complete is
    loaded, and the loop ends there. *)
Fixpoint loadFirstUnplayed (matches : list Match) (arena : Arena)
    : M (option error * Arena) :=
  match matches with
  | [] => ret (None, arena)
  | m :: rest =>
      if negb (String.eqb (Status m) "complete") then LoadMatch m arena
      else loadFirstUnplayed rest arena
  end.

(** Loads the first unplayed match of the current match type. [None] is
    the panic of the nil dereference when no match is current. The query
    of the store is not in the log of calls. *)
Definition LoadNextMatch (arena : Arena) : option (M (option error * Arena)) :=
  match currentMatch arena with
  | None => None
  | Some cur =>
      Some
        (if String.eqb (Type_ cur) "test" then LoadTestMatch arena
         else
           λ env,
             let '((matches, err), w) :=
               db_GetMatchesByType (Type_ cur) (world env) in
             match err with
             | Some e => ((Some (ErrCollaborator e), arena), mkEnv w (calls env))
             | None => loadFirstUnplayed matches arena (mkEnv w (calls env))
             end)
  end.

End MatchRecord.

(** The team number that [LoadMatch] assigns to a station. *)
Definition teamAt (station : string) (m : Match) : Z :=
  if String.eqb station "R1" then Red1 m
  else if String.eqb station "R2" then Red2 m
  else if String.eqb station "R3" then Red3 m
  else if String.eqb station "B1" then Blue1 m
  else if String.eqb station "B2" then Blue2 m
  else if String.eqb station "B3" then Blue3 m
  else 0.

(** A simulated store of matches: the query returns [simMatches] of the
    type asked for, or fails. *)
Definition simStore (simMatches : list Match) (fails : bool) : @MatchStore sim := {|
  db_GetMatchesByType := λ type (w : @World sim),
    (if fails then ([], Some "query failed"%string)
     else (filter (λ m, Type_ m = type) simMatches, None), w)
|}.

(** ** Relations between the arena before and after an operation *)

(** Every station of [a] is a station of [a'] and the two are related
    by [R]; no station is added. *)
Definition stations_related (R : AllianceStation → AllianceStation → Prop)
    (a a' : Arena) : Prop :=
  ∀ k, match AllianceStations a !! k, AllianceStations a' !! k with
       | Some st, Some st' => R st st'
       | None, None => True
       | _, _ => False
       end.

(** The two safety flags are the same. *)
Definition same_flags (st st' : AllianceStation) : Prop :=
  EmergencyStop st' = EmergencyStop st ∧ Bypass st' = Bypass st.

(** Everything but the fields of the connection is the same, and a
    connection stays a connection for the same team with the same link
    status. *)
Definition same_binding (st st' : AllianceStation) : Prop :=
  EmergencyStop st' = EmergencyStop st ∧ Bypass st' = Bypass st
  ∧ team st' = team st
  ∧ match DsConn st, DsConn st' with
    | Some c, Some c' =>
        TeamId c' = TeamId c ∧ DriverStationStatus c' = DriverStationStatus c
    | None, None => True
    | _, _ => False
    end.

(** A station that holds a connection holds a team. *)
Definition paired (arena : Arena) : Prop :=
  ∀ k st, AllianceStations arena !! k = Some st →
          is_Some (DsConn st) → is_Some (team st).

(** The relation [R] holds between the arena before and after [f]. *)
Definition relates {C : Collaborators} (R : Arena → Arena → Prop)
    (f : Arena → M (option error * Arena)) : Prop :=
  ∀ arena env, R arena (f arena env).1.2.

(** ** The packet of a station *)

(** The connection of a station as a dispatch configures it. *)
Definition dispatched (auto enabled : bool) (st : AllianceStation)
    (c : DriverStationConnection) : DriverStationConnection :=
  set_Enabled (enabled && negb (EmergencyStop st) && negb (Bypass st))
              (set_Auto auto c).

(** The station after a dispatch has visited it. *)
Definition dispatchedStation (auto enabled : bool) (st : AllianceStation)
    : AllianceStation :=
  set_DsConn (dispatched auto enabled st <$> DsConn st) st.

(** The call that a dispatch makes for the station at [k], if any. *)
Definition dispatchCall (auto enabled : bool)
    (stations : gmap string AllianceStation) (k : string) : option Call :=
  st ← stations !! k; c ← DsConn st; Some (CallUpdate k (dispatched auto enabled st c)).

(** The states in which the robots run autonomously, and those in which
    they are enabled. *)
Definition autoState (s : Z) : bool := (s =? PRE_MATCH) || (s =? AUTO_PERIOD).
Definition enabledState (s : Z) : bool :=
  (s =? AUTO_PERIOD) || (s =? TELEOP_PERIOD) || (s =? ENDGAME_PERIOD).

(** The test of [Update] on the time since the last packet. *)
Definition packetPeriodOver (tk : Tick) (arena : Arena) : bool :=
  geQ (Qmult (Seconds (nowSince tk - lastDsPacketTime arena)) (inject_Z 1000))
      (inject_Z dsPacketPeriodMs).

(** ** Well-formed arenas *)

(** The assignments of [LoadMatch], one for each key in turn, up to the
    first error. *)
Fixpoint assignEach {C : Collaborators} (m : Match) (keys : list string)
    : Arena → M (option error * Arena) :=
  match keys with
  | [] => λ arena, ret (None, arena)
  | [k] => AssignTeam (teamAt k m) k
  | k :: rest => andThen (AssignTeam (teamAt k m) k) (assignEach m rest)
  end.

(** An arena as [Setup] and the operations leave it: the six stations and
    a current match. *)
Definition well_formed (arena : Arena) : Prop :=
  six_stations arena ∧ is_Some (currentMatch arena).

(** What every operation but [ResetMatch] keeps of the stations: the
    flags of every station, and a team wherever there is a connection. *)
Definition keeps_stations (a a' : Arena) : Prop :=
  stations_related same_flags a a' ∧ (paired a → paired a').

(** The station after [AssignTeam] with team number 0 has closed its
    connection, if it had one. *)
Definition emptied (st : AllianceStation) : AllianceStation :=
  match DsConn st with
  | Some _ => released st
  | None => st
  end.

(** The [Close] that empties the station at [k], if it holds a
    connection. *)
Definition closeCall (stations : gmap string AllianceStation) (k : string)
    : option Call :=
  st ← stations !! k; c ← DsConn st; Some (CallClose k c).

(** Simulated collaborators whose connections always close. *)
Definition simClosing : Collaborators := {|
  World := SimWorld;
  db_GetTeamById := @db_GetTeamById sim;
  NewDriverStationConnection := @NewDriverStationConnection sim;
  ds_Close := λ c w, (None, w);
  ds_Update := @ds_Update sim
|}.

(** ** The flow of a match in nanoseconds *)

(** The period of the match [d] nanoseconds after its start: 10, 11, 121
    and 151 seconds are 10, 11, 121 and 151 times 10^9 nanoseconds. *)
Definition period_ns (d : Z) : Z :=
  if 151000000000 <=? d then POST_MATCH
  else if 121000000000 <=? d then ENDGAME_PERIOD
  else if 11000000000 <=? d then TELEOP_PERIOD
  else if 10000000000 <=? d then PAUSE_PERIOD
  else AUTO_PERIOD.

(** The state after a tick in state [s], [d] nanoseconds after the start
    of the match: at most one step, taken when [d] has reached the
    threshold of the state. *)
Definition step_ns (s d : Z) : Z :=
  if s =? START_MATCH then AUTO_PERIOD
  else if s =? AUTO_PERIOD then
    if 10000000000 <=? d then PAUSE_PERIOD else AUTO_PERIOD
  else if s =? PAUSE_PERIOD then
    if 11000000000 <=? d then TELEOP_PERIOD else PAUSE_PERIOD
  else if s =? TELEOP_PERIOD then
    if 121000000000 <=? d then ENDGAME_PERIOD else TELEOP_PERIOD
  else if s =? ENDGAME_PERIOD then
    if 151000000000 <=? d then POST_MATCH else ENDGAME_PERIOD
  else s.

(** The states after each of a series of ticks, from state [s], for a
    match started at [start]: one [step_ns] for each tick. *)
Fixpoint flow (s : Z) (start : Time) (tks : list Tick) : list Z :=
  match tks with
  | [] => []
  | tk :: rest =>
      let s' := step_ns s (nowMatchTime tk - start) in
      s' :: flow s' start rest
  end.

(** ** Properties *)

Section Properties.
Context {C : Collaborators}.

Lemma range_order_elem order arena k :
  range_order order arena →
  k ∈ order ↔ is_Some (AllianceStations arena !! k).
Proof.
  unfold range_order. intros ->.
  rewrite list_elem_of_fmap. split.
  - intros [[k' st] [-> Hin]]. apply elem_of_map_to_list in Hin. eauto.
  - intros [st Hst]. exists (k, st). split; [done|].
    by apply elem_of_map_to_list.
Qed.

Lemma six_stations_lookup arena k :
  six_stations arena →
  k ∈ stationKeys → is_Some (AllianceStations arena !! k).
Proof.
  unfold six_stations. intros Hdom Hk.
  apply elem_of_dom. rewrite Hdom. by apply elem_of_list_to_set.
Qed.

(** *** The readiness check *)

Lemma checkStation_None st :
  checkStation st = None ↔ EmergencyStop st = false ∧ ready st.
Proof.
  unfold checkStation, ready.
  destruct (EmergencyStop st).
  { split; [done|]. by intros [? _]. }
  destruct (Bypass st); simpl.
  { split; [|done]. intros _. split; [done|]. by intros ?. }
  destruct (DsConn st) as [c|].
  - destruct (RobotLinked (DriverStationStatus c)) eqn:Hl; simpl.
    + split; [|done]. intros _. split; [done|]. intros _. by exists c.
    + split; [done|]. intros [_ H].
      destruct (H eq_refl) as (c' & Hc & Hl'). simplify_eq. congruence.
  - split; [done|]. intros [_ H]. by destruct (H eq_refl) as (c' & Hc & _).
Qed.

Lemma checkStations_None stations order :
  checkStations stations order = None ↔
  ∀ k st, k ∈ order → stations !! k = Some st → checkStation st = None.
Proof.
  induction order as [|k rest IH]; simpl.
  - split; [|done]. intros _ k st Hk. by apply elem_of_nil in Hk.
  - destruct (stations !! k) as [st|] eqn:Hk.
    + destruct (checkStation st) as [err|] eqn:Hst.
      * split; [done|]. intros H.
        specialize (H k st (list_elem_of_here _ _) Hk). congruence.
      * rewrite IH. split.
        -- intros H k' st' Hin Hk'. apply elem_of_cons in Hin as [->|Hin].
           ++ by simplify_eq.
           ++ by eapply H.
        -- intros H k' st' Hin. apply H. by apply list_elem_of_further.
    + rewrite IH. split.
      * intros H k' st' Hin Hk'. apply elem_of_cons in Hin as [->|Hin].
        -- congruence.
        -- by eapply H.
      * intros H k' st' Hin. apply H. by apply list_elem_of_further.
Qed.

Lemma checkStations_error stations order err :
  checkStations stations order = Some err →
  err = ErrEmergencyStop ∨ err = ErrRobotsNotReady.
Proof.
  induction order as [|k rest IH]; simpl; [done|].
  destruct (stations !! k) as [st|]; [|done].
  destruct (checkStation st) as [e|] eqn:Hst; [|done].
  intros [= <-]. revert Hst. unfold checkStation.
  repeat case_match; naive_solver.
Qed.

(** C1. [CheckCanStartMatch] returns nil if and only if [MatchState] is
    [PRE_MATCH], no station has its emergency stop set, and every station
    that is not bypassed has a connection whose [RobotLinked] is true;
    otherwise it returns an error.  This holds for every order in which
    the [range] visits the stations. *)
Theorem CheckCanStartMatch_ok_iff order arena :
  range_order order arena →
  (CheckCanStartMatch order arena = None ↔ can_start arena)
  ∧ (¬ can_start arena → ∃ err, CheckCanStartMatch order arena = Some err).
Proof.
  intros Hord.
  assert (Hiff : CheckCanStartMatch order arena = None ↔ can_start arena).
  { unfold can_start, CheckCanStartMatch.
    destruct (MatchState arena =? PRE_MATCH) eqn:Hs; simpl.
    - apply Z.eqb_eq in Hs. rewrite checkStations_None. split.
      + intros H. split; [done|].
        split; intros k st Hk;
          (assert (Hin : k ∈ order)
             by (eapply range_order_elem; eauto));
          destruct (proj1 (checkStation_None st) (H k st Hin Hk)) as [He Hr];
          done.
      + intros (_ & He & Hr) k st _ Hk. apply checkStation_None.
        split; [by eapply He|]. intros Hb. by eapply Hr.
    - apply Z.eqb_neq in Hs. split; [done|]. by intros [? _]. }
  split; [done|].
  intros Hnot. destruct (CheckCanStartMatch order arena) as [err|] eqn:Hc.
  - by exists err.
  - destruct Hnot. by apply Hiff.
Qed.

Lemma checkStation_stopped st :
  EmergencyStop st = true → checkStation st = Some ErrEmergencyStop.
Proof. unfold checkStation. by intros ->. Qed.

Lemma checkStation_not_ready st :
  checkStation st = Some ErrRobotsNotReady →
  EmergencyStop st = false ∧ ¬ ready st.
Proof.
  intros H. destruct (EmergencyStop st) eqn:He.
  - rewrite checkStation_stopped in H; done.
  - split; [done|]. intros Hr.
    assert (checkStation st = None) by (by apply checkStation_None).
    congruence.
Qed.

Lemma checkStations_not_ready stations order :
  checkStations stations order = Some ErrRobotsNotReady →
  ∃ k st, k ∈ order ∧ stations !! k = Some st
          ∧ EmergencyStop st = false ∧ ¬ ready st.
Proof.
  induction order as [|k rest IH]; simpl; [done|].
  destruct (stations !! k) as [st|] eqn:Hk.
  - destruct (checkStation st) as [e|] eqn:Hst.
    + intros [= ->]. exists k, st.
      split; [apply list_elem_of_here|]. split; [done|].
      by apply checkStation_not_ready.
    + intros H. destruct (IH H) as (k' & st' & Hin & ?).
      exists k', st'. split; [by apply list_elem_of_further|done].
  - intros H. destruct (IH H) as (k' & st' & Hin & ?).
    exists k', st'. split; [by apply list_elem_of_further|done].
Qed.

(** C4, as amended. With an emergency stop set at some station, the
    readiness check in [PRE_MATCH] fails, with the emergency-stop error or
    the robots-not-ready error. It is the emergency-stop error whenever
    every station without an emergency stop is bypassed or linked, whatever
    the bypass flag and the connection of the stopped stations are. *)
Theorem CheckCanStartMatch_emergency_stop order arena :
  range_order order arena →
  MatchState arena = PRE_MATCH →
  (∃ k st, AllianceStations arena !! k = Some st ∧ EmergencyStop st = true) →
  (∃ err, CheckCanStartMatch order arena = Some err
          ∧ (err = ErrEmergencyStop ∨ err = ErrRobotsNotReady))
  ∧ ((∀ k st, AllianceStations arena !! k = Some st →
               EmergencyStop st = false → ready st) →
     CheckCanStartMatch order arena = Some ErrEmergencyStop).
Proof.
  intros Hord Hs (k & st & Hk & He).
  assert (Hc : CheckCanStartMatch order arena
               = checkStations (AllianceStations arena) order).
  { unfold CheckCanStartMatch. apply Z.eqb_eq in Hs. by rewrite Hs. }
  assert (Herr : ∃ err, checkStations (AllianceStations arena) order = Some err).
  { destruct (checkStations (AllianceStations arena) order) as [e|] eqn:Hn;
      [by exists e|].
    assert (Hin : k ∈ order) by (eapply range_order_elem; eauto).
    pose proof (proj1 (checkStations_None _ _) Hn k st Hin Hk) as Hst.
    rewrite checkStation_stopped in Hst; done. }
  destruct Herr as [err Herr]. rewrite Hc, Herr.
  pose proof (checkStations_error _ _ _ Herr) as Hkind.
  split; [by exists err|].
  intros Hready. destruct Hkind as [->| ->]; [done|].
  apply checkStations_not_ready in Herr as (k' & st' & _ & Hk' & He' & Hn).
  destruct Hn. by eapply Hready.
Qed.

End Properties.

(** C1, at the arena whose six stations are bypassed. *)
Lemma CheckCanStartMatch_ok_iff_witness :
  (CheckCanStartMatch stationKeys (bypassedArena PRE_MATCH) = None
   ↔ can_start (bypassedArena PRE_MATCH))
  ∧ (¬ can_start (bypassedArena PRE_MATCH) →
     ∃ err, CheckCanStartMatch stationKeys (bypassedArena PRE_MATCH) = Some err).
Proof.
  apply (CheckCanStartMatch_ok_iff stationKeys (bypassedArena PRE_MATCH)).
  unfold range_order. apply (bool_decide_unpack _). vm_compute. reflexivity.
Defined.

(** C4 as stated fails: station R1 is visited first and is neither
    bypassed nor connected, station R2 has its emergency stop set, and the
    check returns the robots-not-ready error. *)
Lemma CheckCanStartMatch_emergency_stop_counterexample :
  let arena :=
    arenaWith newAllianceStation stopped bypassed bypassed bypassed bypassed
              PRE_MATCH in
  six_stations arena
  ∧ range_order stationKeys arena
  ∧ MatchState arena = PRE_MATCH
  ∧ AllianceStations arena !! "R2" = Some stopped
  ∧ EmergencyStop stopped = true
  ∧ CheckCanStartMatch stationKeys arena = Some ErrRobotsNotReady
  ∧ CheckCanStartMatch stationKeys arena ≠ Some ErrEmergencyStop.
Proof.
  intros arena.
  split; [unfold six_stations; apply (bool_decide_unpack _); vm_compute; reflexivity|].
  split; [unfold range_order; apply (bool_decide_unpack _); vm_compute; reflexivity|].
  split; [reflexivity|].
  split; [vm_compute; reflexivity|].
  split; [reflexivity|].
  split; [vm_compute; reflexivity|].
  vm_compute. discriminate.
Qed.

(** C4 as amended, at an arena whose station R2 is stopped and bypassed
    with no connection, the other five being bypassed. *)
Lemma CheckCanStartMatch_emergency_stop_witness :
  let arena :=
    arenaWith bypassed (set_EmergencyStop true bypassed) bypassed
              bypassed bypassed bypassed PRE_MATCH in
  (∃ err, CheckCanStartMatch stationKeys arena = Some err
          ∧ (err = ErrEmergencyStop ∨ err = ErrRobotsNotReady))
  ∧ ((∀ k st, AllianceStations arena !! k = Some st →
               EmergencyStop st = false → ready st) →
     CheckCanStartMatch stationKeys arena = Some ErrEmergencyStop).
Proof.
  intros arena.
  apply (CheckCanStartMatch_emergency_stop stationKeys arena).
  - unfold range_order. apply (bool_decide_unpack _). vm_compute. reflexivity.
  - reflexivity.
  - exists "R2"%string, (set_EmergencyStop true bypassed).
    split; reflexivity.
Defined.

(** ** Team assignment *)

Section Assignment.
Context {C : Collaborators}.

Lemma with_station_lookup k f arena :
  AllianceStations (with_station k f arena) !! k = f <$> AllianceStations arena !! k.
Proof. unfold with_station. simpl. apply lookup_alter_eq. Qed.

Lemma with_station_lookup_ne k k' f arena :
  k ≠ k' →
  AllianceStations (with_station k f arena) !! k' = AllianceStations arena !! k'.
Proof. intros. unfold with_station. simpl. by apply lookup_alter_ne. Qed.

Lemma with_station_six k f arena :
  six_stations arena → six_stations (with_station k f arena).
Proof.
  unfold six_stations, with_station. simpl. intros <-.
  apply set_eq. intros x. rewrite !elem_of_dom. apply lookup_alter_is_Some.
Qed.

(** C9. When the slot holds a connection for another team and closing it
    fails, [AssignTeam] returns that error; the arena, and so the team and
    the connection of the slot, is as before, and [Close] is the only call
    made. *)
Theorem AssignTeam_close_error teamId station arena env st dsConn msg w :
  AllianceStations arena !! station = Some st →
  DsConn st = Some dsConn →
  TeamId dsConn ≠ teamId →
  ds_Close dsConn (world env) = (Some msg, w) →
  AssignTeam teamId station arena env
  = ((Some (ErrCollaborator msg), arena),
     mkEnv w (CallClose station dsConn :: calls env)).
Proof.
  intros Hst Hc Hne Hclose. unfold AssignTeam. rewrite Hst, Hc.
  apply Z.eqb_neq in Hne. rewrite Hne.
  unfold bind, call_Close. rewrite Hclose. reflexivity.
Qed.

(** When the constructor of the connection fails, the team stays bound. *)
Lemma AssignTeam_load_construction_error teamId station arena env t w1 r msg w2 :
  teamId ≠ 0 →
  db_GetTeamById teamId (world env) = ((Some t, None), w1) →
  NewDriverStationConnection (Id t) station w1 = ((r, Some msg), w2) →
  ∃ arena' env',
    AssignTeam_load teamId station arena env
    = ((Some (ErrCollaborator msg), arena'), env')
    ∧ AllianceStations arena' !! station
      = set_DsConn r <$> (set_team (Some t) <$> AllianceStations arena !! station).
Proof.
  intros Hne Hget Hnew. unfold AssignTeam_load.
  apply Z.eqb_neq in Hne. rewrite Hne.
  unfold bind, call_GetTeamById. rewrite Hget. simpl.
  unfold call_NewDriverStationConnection. simpl. rewrite Hnew. simpl.
  eexists _, _. split; [reflexivity|].
  by rewrite !with_station_lookup.
Qed.

(** C8, as amended. For each valid station key (each key of the map: the
    six of [stationKeys] by [six_stations_lookup]), [AssignTeam] with team
    number 0 on a consistent slot that is empty, or whose connection is
    for a nonzero team and closes without error, succeeds and leaves the
    slot with no team and no connection, the other slots being as before;
    the connection, if any, has been closed by one call. A second
    [AssignTeam] with 0 then succeeds with no call and no change. *)
Theorem AssignTeam_zero station arena env st :
  AllianceStations arena !! station = Some st →
  consistent st →
  (∀ dsConn, DsConn st = Some dsConn →
     TeamId dsConn ≠ 0 ∧ (ds_Close dsConn (world env)).1 = None) →
  ∃ arena' env',
    AssignTeam 0 station arena env = ((None, arena'), env')
    ∧ AllianceStations arena' !! station = Some (released st)
    ∧ DsConn (released st) = None ∧ team (released st) = None
    ∧ (∀ k, k ≠ station →
         AllianceStations arena' !! k = AllianceStations arena !! k)
    ∧ calls env'
      = match DsConn st with
        | Some dsConn => CallClose station dsConn :: calls env
        | None => calls env
        end
    ∧ AssignTeam 0 station arena' env' = ((None, arena'), env').
Proof.
  intros Hst Hcons Hclose. unfold AssignTeam at 1. rewrite Hst.
  destruct (DsConn st) as [dsConn|] eqn:Hc.
  - destruct (Hclose dsConn eq_refl) as [Hne Hok].
    apply Z.eqb_neq in Hne. rewrite Hne.
    unfold bind, call_Close.
    destruct (ds_Close dsConn (world env)) as [r w] eqn:Hcl.
    simpl in Hok. subst r. simpl.
    eexists _, _. split; [reflexivity|].
    assert (Hnew : AllianceStations
              (with_station station (set_DsConn None)
                 (with_station station (set_team None) arena)) !! station
            = Some (released st)).
    { rewrite !with_station_lookup, Hst. reflexivity. }
    split; [exact Hnew|]. split; [done|]. split; [done|].
    split.
    { intros k Hk. by rewrite !with_station_lookup_ne. }
    split; [done|].
    unfold AssignTeam. rewrite Hnew. reflexivity.
  - simpl. eexists _, _. split; [reflexivity|].
    assert (Hrel : released st = st).
    { pose proof (Hcons Hc) as Ht. unfold released.
      destruct st as [c e b t]. simpl in *. by subst. }
    rewrite Hrel. split; [done|]. split; [done|].
    split; [done|]. split; [done|]. split; [done|].
    unfold AssignTeam. rewrite Hst, Hc. reflexivity.
Qed.

Lemma AssignTeam_load_assignment teamId station :
  assignment (AssignTeam_load teamId station).
Proof.
  intros arena env. unfold AssignTeam_load, bind, ret.
  destruct (teamId =? 0); [by simpl|].
  unfold call_GetTeamById.
  destruct (db_GetTeamById teamId (world env)) as [[[t|] [e|]] w]; simpl;
    try (repeat split; [done|by intros ? [= <-]]).
  unfold call_NewDriverStationConnection. simpl.
  destruct (NewDriverStationConnection (Id t) station w) as [[c [e|]] w']; simpl;
    (repeat split; [by auto using with_station_six|by intros ? [= <-]]).
Qed.

Lemma AssignTeam_assignment teamId station :
  assignment (AssignTeam teamId station).
Proof.
  intros arena env. unfold AssignTeam.
  destruct (AllianceStations arena !! station) as [st|];
    [|simpl; repeat split; [done|by intros ? [= <-]]].
  destruct (DsConn st) as [dsConn|];
    [|apply AssignTeam_load_assignment].
  destruct (TeamId dsConn =? teamId); [by simpl|].
  unfold bind, call_Close.
  destruct (ds_Close dsConn (world env)) as [[e|] w]; simpl;
    [repeat split; [done|by intros ? [= <-]]|].
  match goal with
  | |- context [AssignTeam_load _ _ ?a ?e] =>
      destruct (AssignTeam_load_assignment teamId station a e)
        as (Hs & Hm & Hsix & He)
  end.
  simpl in Hs, Hm. repeat split; auto using with_station_six.
Qed.

Lemma andThen_assignment f g :
  assignment f → assignment g → assignment (andThen f g).
Proof.
  intros Hf Hg arena env. unfold andThen, bind, ret.
  destruct (Hf arena env) as (Hs & Hm & Hsix & He).
  destruct (f arena env) as [[[e|] arena1] env1]; simpl in *.
  - repeat split; auto.
  - destruct (Hg arena1 env1) as (Hs' & Hm' & Hsix' & He').
    repeat split; [congruence|congruence|auto|auto].
Qed.

(** C6, as amended. [LoadMatch] is permitted exactly in [PRE_MATCH]: from
    that state it replaces the current match and goes on to assign the
    teams, returning no match-in-progress error; from every other state,
    [POST_MATCH] included, it fails with the match-in-progress error, makes
    no call and leaves the arena, and so the current match, as it was. *)
Theorem LoadMatch_permitted m arena env :
  (MatchState arena = PRE_MATCH →
     ∃ err arena' env',
       LoadMatch m arena env = ((err, arena'), env')
       ∧ currentMatch arena' = Some m
       ∧ MatchState arena' = PRE_MATCH
       ∧ (∀ e, err = Some e → kind_of e ≠ MatchInProgress))
  ∧ (MatchState arena ≠ PRE_MATCH →
       LoadMatch m arena env = ((Some ErrLoadInProgress, arena), env)
       ∧ kind_of ErrLoadInProgress = MatchInProgress).
Proof.
  split.
  - intros Hs. unfold LoadMatch.
    apply Z.eqb_eq in Hs as Hs'. rewrite Hs'. simpl.
    match goal with
    | |- context [andThen ?f ?g ?a env] =>
        assert (Ha : assignment (andThen f g))
          by (repeat apply andThen_assignment; apply AssignTeam_assignment);
        destruct (Ha a env) as (H1 & H2 & _ & H4);
        destruct (andThen f g a env) as [[err arena'] env']
    end.
    simpl in *. exists err, arena', env'. repeat split; auto; congruence.
  - intros Hs. unfold LoadMatch. apply Z.eqb_neq in Hs. rewrite Hs. done.
Qed.

End Assignment.

(** ** Reset *)

Section Reset.

Lemma clearBypass_present k arena :
  is_Some (AllianceStations arena !! k) →
  clearBypass k arena = Some (with_station k (set_Bypass false) arena).
Proof. intros [st Hst]. unfold clearBypass. by rewrite Hst. Qed.

Lemma six_stations_absent arena k :
  six_stations arena → k ∉ stationKeys → AllianceStations arena !! k = None.
Proof.
  unfold six_stations. intros Hdom Hk. apply not_elem_of_dom.
  rewrite Hdom. by rewrite elem_of_list_to_set.
Qed.

Lemma stationKeys_elem k :
  k ∈ stationKeys ↔
  k = "R1"%string ∨ k = "R2"%string ∨ k = "R3"%string
  ∨ k = "B1"%string ∨ k = "B2"%string ∨ k = "B3"%string.
Proof.
  unfold stationKeys. rewrite !elem_of_cons, elem_of_nil. tauto.
Qed.

(** The stations after the six assignments of [ResetMatch]. *)
Lemma reset_lookup arena k :
  six_stations arena →
  let f := set_Bypass false in
  AllianceStations
    (with_station "B3" f (with_station "B2" f (with_station "B1" f
    (with_station "R3" f (with_station "R2" f (with_station "R1" f
       (set_MatchState PRE_MATCH arena))))))) !! k
  = f <$> AllianceStations arena !! k.
Proof.
  intros Hsix f. unfold with_station. simpl.
  destruct (decide (k ∈ stationKeys)) as [Hk|Hk].
  - apply stationKeys_elem in Hk.
    destruct Hk as [->|[->|[->|[->|[->| ->]]]]];
      repeat (rewrite lookup_alter_ne by done);
      rewrite lookup_alter_eq;
      repeat (rewrite lookup_alter_ne by done); done.
  - rewrite (six_stations_absent arena k Hsix Hk).
    rewrite stationKeys_elem in Hk.
    repeat (rewrite lookup_alter_ne by naive_solver).
    by rewrite (six_stations_absent arena k Hsix)
      by (rewrite stationKeys_elem; naive_solver).
Qed.

(** C7. [ResetMatch] called in [POST_MATCH] or [PRE_MATCH] sets
    [MatchState] to [PRE_MATCH] and the bypass flag of each of the six
    stations to false, and leaves the emergency stop, the team and the
    connection of every station as they were; called in any other state
    it fails with the match-in-progress error and changes nothing. *)
Theorem ResetMatch_spec arena :
  six_stations arena →
  (MatchState arena = POST_MATCH ∨ MatchState arena = PRE_MATCH →
     ∃ arena',
       ResetMatch arena = Some (None, arena')
       ∧ MatchState arena' = PRE_MATCH
       ∧ (∀ k, k ∈ stationKeys →
            ∃ st st',
              AllianceStations arena !! k = Some st
              ∧ AllianceStations arena' !! k = Some st'
              ∧ Bypass st' = false
              ∧ EmergencyStop st' = EmergencyStop st
              ∧ team st' = team st
              ∧ DsConn st' = DsConn st)
       ∧ six_stations arena'
       ∧ currentMatch arena' = currentMatch arena
       ∧ matchStartTime arena' = matchStartTime arena
       ∧ lastDsPacketTime arena' = lastDsPacketTime arena
       ∧ CanStartMatch arena' = CanStartMatch arena)
  ∧ (MatchState arena ≠ POST_MATCH → MatchState arena ≠ PRE_MATCH →
       ResetMatch arena = Some (Some ErrResetInProgress, arena)
       ∧ kind_of ErrResetInProgress = MatchInProgress).
Proof.
  intros Hsix. split.
  - intros Hs. unfold ResetMatch.
    assert (Htest : negb (MatchState arena =? POST_MATCH)
                    && negb (MatchState arena =? PRE_MATCH) = false).
    { destruct Hs as [-> | ->]; reflexivity. }
    rewrite Htest.
    assert (Hsix0 : six_stations (set_MatchState PRE_MATCH arena)) by done.
    repeat
      (rewrite clearBypass_present;
       [simpl mbind
       |apply six_stations_lookup;
        [repeat apply with_station_six; exact Hsix0
        |unfold stationKeys; repeat constructor]]).
    eexists. split; [reflexivity|]. split; [done|].
    split.
    { intros k Hk.
      destruct (six_stations_lookup arena k Hsix Hk) as [st Hst].
      exists st, (set_Bypass false st).
      split; [done|]. rewrite (reset_lookup arena k Hsix), Hst. done. }
    split; [by repeat apply with_station_six|]. done.
  - intros H1 H2. unfold ResetMatch.
    apply Z.eqb_neq in H1, H2. rewrite H1, H2. done.
Qed.

End Reset.

(** ** Status packets *)

Section Dispatch.
Context {C : Collaborators}.

Lemma sendDsPacketTo_frame auto enabled k arena env :
  MatchState (sendDsPacketTo auto enabled k arena env).1 = MatchState arena
  ∧ matchStartTime (sendDsPacketTo auto enabled k arena env).1
    = matchStartTime arena.
Proof.
  unfold sendDsPacketTo.
  destruct (AllianceStations arena !! k) as [st|]; [|done].
  destruct (DsConn st) as [c|]; [|done].
  unfold bind, call_Update. by destruct (ds_Update _ _).
Qed.

Lemma sendDsPacketLoop_frame auto enabled order arena env :
  MatchState (sendDsPacketLoop auto enabled order arena env).1 = MatchState arena
  ∧ matchStartTime (sendDsPacketLoop auto enabled order arena env).1
    = matchStartTime arena.
Proof.
  revert arena env. induction order as [|k rest IH]; intros arena env; simpl.
  - done.
  - unfold bind.
    destruct (sendDsPacketTo_frame auto enabled k arena env) as [H1 H2].
    destruct (sendDsPacketTo auto enabled k arena env) as [arena1 env1].
    simpl in *. destruct (IH arena1 env1) as [H3 H4]. split; congruence.
Qed.

Lemma sendDsPacket_frame order sent auto enabled arena env :
  MatchState (sendDsPacket order sent auto enabled arena env).1 = MatchState arena
  ∧ matchStartTime (sendDsPacket order sent auto enabled arena env).1
    = matchStartTime arena.
Proof.
  unfold sendDsPacket, bind, ret.
  destruct (sendDsPacketLoop_frame auto enabled order arena env) as [H1 H2].
  by destruct (sendDsPacketLoop auto enabled order arena env).
Qed.

(** The connection of a stopped or bypassed slot as [sendDsPacket] hands
    it to [Update]. *)
Lemma disabled_twice auto c :
  set_Enabled false (set_Auto auto (set_Enabled false (set_Auto auto c)))
  = set_Enabled false (set_Auto auto c).
Proof. reflexivity. Qed.

Lemma sendDsPacketTo_held auto enabled tgt k k' arena env :
  held auto tgt k arena →
  ∃ new,
    calls (sendDsPacketTo auto enabled k' arena env).2 = new ++ calls env
    ∧ (∀ c, CallUpdate k c ∈ new → c = tgt)
    ∧ (k' = k → CallUpdate k tgt ∈ new)
    ∧ held auto tgt k (sendDsPacketTo auto enabled k' arena env).1
    ∧ (k' = k →
       ∃ st', AllianceStations (sendDsPacketTo auto enabled k' arena env).1 !! k
              = Some st' ∧ DsConn st' = Some tgt).
Proof.
  intros (st & c & Hst & Hc & Hflag & Htgt). unfold sendDsPacketTo.
  destruct (decide (k' = k)) as [->|Hne].
  - rewrite Hst, Hc.
    assert (Hoff : enabled && negb (EmergencyStop st) && negb (Bypass st) = false).
    { destruct Hflag as [-> | ->]; destruct enabled; simpl;
        try done; by destruct (EmergencyStop st). }
    rewrite Hoff, Htgt. unfold bind, call_Update, ret.
    destruct (ds_Update tgt (world env)) as [r w]. simpl.
    exists [CallUpdate k tgt]. split; [done|].
    split. { intros c' Hin. apply list_elem_of_singleton in Hin. congruence. }
    split. { intros _. apply list_elem_of_here. }
    assert (Hnew : AllianceStations
                     (with_station k (set_DsConn (Some tgt)) arena) !! k
                   = Some (set_DsConn (Some tgt) st)).
    { by rewrite with_station_lookup, Hst. }
    split.
    + exists (set_DsConn (Some tgt) st), tgt.
      split; [done|]. split; [done|]. split; [done|].
      rewrite <- Htgt. apply disabled_twice.
    + intros _. by exists (set_DsConn (Some tgt) st).
  - assert (Hkeep : ∀ f, held auto tgt k (with_station k' f arena)).
    { intros f. exists st, c. by rewrite with_station_lookup_ne. }
    destruct (AllianceStations arena !! k') as [st'|].
    + destruct (DsConn st') as [c'|].
      * unfold bind, call_Update, ret.
        destruct (ds_Update _ (world env)) as [r w]. simpl.
        eexists [_]. split; [reflexivity|].
        split. { intros c0 Hin. apply list_elem_of_singleton in Hin. congruence. }
        split; [done|]. split; [apply Hkeep|done].
      * exists []. split; [done|].
        split. { intros c0 Hin. by apply elem_of_nil in Hin. }
        split; [done|]. split; [|done]. by exists st, c.
    + exists []. split; [done|].
      split. { intros c0 Hin. by apply elem_of_nil in Hin. }
      split; [done|]. split; [|done]. by exists st, c.
Qed.

Lemma sendDsPacketLoop_held auto enabled tgt k order arena env :
  held auto tgt k arena →
  ∃ new,
    calls (sendDsPacketLoop auto enabled order arena env).2 = new ++ calls env
    ∧ (∀ c, CallUpdate k c ∈ new → c = tgt)
    ∧ (k ∈ order → CallUpdate k tgt ∈ new)
    ∧ held auto tgt k (sendDsPacketLoop auto enabled order arena env).1
    ∧ (k ∈ order →
       ∃ st', AllianceStations (sendDsPacketLoop auto enabled order arena env).1 !! k
              = Some st' ∧ DsConn st' = Some tgt).
Proof.
  revert arena env. induction order as [|k' rest IH]; intros arena env Hheld; simpl.
  - exists []. split; [done|].
    split. { intros c Hin. by apply elem_of_nil in Hin. }
    split. { intros Hin. by apply elem_of_nil in Hin. }
    split; [done|]. intros Hin. by apply elem_of_nil in Hin.
  - unfold bind.
    destruct (sendDsPacketTo_held auto enabled tgt k k' arena env Hheld)
      as (new1 & Hcalls1 & Hall1 & Hex1 & Hheld1 & Hst1).
    destruct (sendDsPacketTo auto enabled k' arena env) as [arena1 env1].
    simpl in *.
    destruct (IH arena1 env1 Hheld1) as (new2 & Hcalls2 & Hall2 & Hex2 & Hheld2 & Hst2).
    exists (new2 ++ new1).
    split. { by rewrite Hcalls2, Hcalls1, (assoc_L (++)). }
    split. { intros c Hin. apply elem_of_app in Hin as [Hin|Hin]; auto. }
    split.
    { intros Hin. apply elem_of_app.
      apply elem_of_cons in Hin as [->|Hin]; auto. }
    split; [done|].
    intros Hin. destruct (decide (k ∈ rest)) as [Hr|Hr]; [auto|].
    apply elem_of_cons in Hin as [->|Hin]; [|done].
    destruct Hheld2 as (st2 & c2 & Hk2 & Hc2 & Hf2 & Ht2).
    (* [k] is not visited again: its slot is as the first step left it. *)
    clear -Hst1 Hr.
    destruct (Hst1 eq_refl) as (st' & Hk' & Hc').
    exists st'. split; [|done]. rewrite <- Hk'. clear Hk' Hst1.
    revert arena1 env1. induction rest as [|k2 rest2 IH2]; intros arena1 env1;
      simpl; [done|].
    apply not_elem_of_cons in Hr as [Hne Hr]. unfold bind.
    assert (Hsame : AllianceStations
                      (sendDsPacketTo auto enabled k2 arena1 env1).1 !! k'
                    = AllianceStations arena1 !! k').
    { unfold sendDsPacketTo.
      destruct (AllianceStations arena1 !! k2) as [s2|]; [|done].
      destruct (DsConn s2) as [d2|]; [|done].
      unfold bind, call_Update, ret. destruct (ds_Update _ _). simpl.
      by apply with_station_lookup_ne. }
    destruct (sendDsPacketTo auto enabled k2 arena1 env1) as [arena2 env2].
    simpl in *. rewrite (IH2 Hr arena2 env2). done.
Qed.

(** C2. In every dispatch ([sendDsPacket]), for every station that holds a
    connection and has its emergency stop or its bypass set, [Update] is
    called on that connection, and on every such call the connection has
    [Enabled] false (and [Auto] as given), whatever the value of
    [enabled]; the connection is left with [Enabled] false. *)
Theorem sendDsPacket_disabled order sent auto enabled arena env k st dsConn :
  range_order order arena →
  AllianceStations arena !! k = Some st →
  DsConn st = Some dsConn →
  EmergencyStop st = true ∨ Bypass st = true →
  ∃ new,
    calls (sendDsPacket order sent auto enabled arena env).2 = new ++ calls env
    ∧ (∃ c, CallUpdate k c ∈ new)
    ∧ (∀ c, CallUpdate k c ∈ new →
         Enabled c = false ∧ Auto c = auto
         ∧ c = set_Enabled false (set_Auto auto dsConn))
    ∧ (∃ st' c',
         AllianceStations (sendDsPacket order sent auto enabled arena env).1 !! k
         = Some st'
         ∧ DsConn st' = Some c' ∧ Enabled c' = false).
Proof.
  intros Hord Hst Hc Hflag.
  assert (Hin : k ∈ order) by (eapply range_order_elem; eauto).
  assert (Hheld : held auto (set_Enabled false (set_Auto auto dsConn)) k arena).
  { by exists st, dsConn. }
  destruct (sendDsPacketLoop_held auto enabled _ k order arena env Hheld)
    as (new & Hcalls & Hall & Hex & _ & Hfin).
  unfold sendDsPacket, bind, ret.
  destruct (sendDsPacketLoop auto enabled order arena env) as [arena1 env1].
  simpl in *. exists new. split; [done|].
  split. { eexists. by apply Hex. }
  split. { intros c Hc'. by rewrite (Hall c Hc'). }
  destruct (Hfin Hin) as (st' & Hk' & Hc').
  by exists st', (set_Enabled false (set_Auto auto dsConn)).
Qed.

End Dispatch.

(** ** The tick *)

Section Ticking.
Context {C : Collaborators}.

(** The state and the start time after [Update] are those its switch
    computes. *)
Lemma Update_switch tk arena env :
  let arena0 :=
    set_CanStartMatch
      (match CheckCanStartMatch (checkOrder tk) arena with
       | None => true | Some _ => false end) arena in
  let next :=
    (updateState tk (MatchTimeSec (nowMatchTime tk) arena0) arena0).1.1.1 in
  MatchState (Update tk arena env).1 = MatchState next
  ∧ matchStartTime (Update tk arena env).1 = matchStartTime next.
Proof.
  intros arena0 next. unfold Update. fold arena0.
  subst next.
  destruct (updateState tk (MatchTimeSec (nowMatchTime tk) arena0) arena0)
    as [[[arena1 auto] enabled] sendPacket].
  simpl. case_match; [apply sendDsPacket_frame|done].
Qed.

(** C10. [Update] never changes [MatchState] when it is [PRE_MATCH] or
    [POST_MATCH]. *)
Theorem Update_idle tk arena env :
  MatchState arena = PRE_MATCH ∨ MatchState arena = POST_MATCH →
  MatchState (Update tk arena env).1 = MatchState arena.
Proof.
  intros Hs. destruct (Update_switch tk arena env) as [-> _].
  unfold updateState. simpl. destruct Hs as [Hs|Hs]; rewrite Hs; simpl; done.
Qed.

(** The first tick after [StartMatch]. *)
Lemma Update_start tk arena env :
  MatchState arena = START_MATCH →
  MatchState (Update tk arena env).1 = AUTO_PERIOD
  ∧ matchStartTime (Update tk arena env).1 = nowStart tk.
Proof.
  intros Hs. destruct (Update_switch tk arena env) as [-> ->].
  unfold updateState. simpl. rewrite Hs. done.
Qed.

(** A tick during the match: [Update] moves to the period of the elapsed
    time, provided that period is the current one or the next. *)
Lemma Update_period tk arena env :
  AUTO_PERIOD ≤ MatchState arena ≤ POST_MATCH →
  MatchState arena ≤ period_at (elapsed (matchStartTime arena) tk)
    ≤ MatchState arena + 1 →
  MatchState (Update tk arena env).1
  = period_at (elapsed (matchStartTime arena) tk)
  ∧ matchStartTime (Update tk arena env).1 = matchStartTime arena.
Proof.
  intros Hrange Hp. destruct (Update_switch tk arena env) as [-> ->].
  revert Hp. unfold period_at, elapsed.
  set (t := Seconds (nowMatchTime tk - matchStartTime arena)).
  unfold updateState, MatchTimeSec.
  cbn [MatchState set_CanStartMatch matchStartTime]. fold t.
  change (inject_Z autoDurationSec) with (inject_Z 10).
  change (inject_Z (autoDurationSec + pauseDurationSec)) with (inject_Z 11).
  change (inject_Z (autoDurationSec + pauseDurationSec + teleopDurationSec
                    - endgameTimeLeftSec)) with (inject_Z 121).
  change (inject_Z (autoDurationSec + pauseDurationSec + teleopDurationSec))
    with (inject_Z 151).
  assert (Hcase : MatchState arena = AUTO_PERIOD
                  ∨ MatchState arena = PAUSE_PERIOD
                  ∨ MatchState arena = TELEOP_PERIOD
                  ∨ MatchState arena = ENDGAME_PERIOD
                  ∨ MatchState arena = POST_MATCH).
  { unfold AUTO_PERIOD, PAUSE_PERIOD, TELEOP_PERIOD, ENDGAME_PERIOD,
      POST_MATCH in *. lia. }
  destruct (geQ t (inject_Z 151)) eqn:H151;
    destruct (geQ t (inject_Z 121)) eqn:H121;
    destruct (geQ t (inject_Z 11)) eqn:H11;
    destruct (geQ t (inject_Z 10)) eqn:H10;
    destruct Hcase as [Hs|[Hs|[Hs|[Hs|Hs]]]]; rewrite Hs;
    repeat match goal with
      | |- context [?a =? ?b] =>
          let v := eval vm_compute in (a =? b) in change (a =? b) with v
      end;
    cbn [orb]; cbv beta iota;
    rewrite ?H151, ?H121, ?H11, ?H10; cbn [MatchState set_MatchState fst];
    unfold AUTO_PERIOD, PAUSE_PERIOD, TELEOP_PERIOD, ENDGAME_PERIOD, POST_MATCH;
    intros Hp; (split; [first [reflexivity | exact Hs | lia] | reflexivity]).
Qed.

Lemma period_at_range t : AUTO_PERIOD ≤ period_at t ≤ POST_MATCH.
Proof.
  unfold period_at, AUTO_PERIOD, PAUSE_PERIOD, TELEOP_PERIOD, ENDGAME_PERIOD,
    POST_MATCH.
  repeat case_match; lia.
Qed.

(** The states along a series of ticks during the match. *)
Lemma run_periods tks arena env :
  AUTO_PERIOD ≤ MatchState arena ≤ POST_MATCH →
  paced (MatchState arena)
        (map (λ tk, period_at (elapsed (matchStartTime arena) tk)) tks) →
  map MatchState (run tks arena env)
  = map (λ tk, period_at (elapsed (matchStartTime arena) tk)) tks.
Proof.
  revert arena env. induction tks as [|tk rest IH]; intros arena env Hrange Hp;
    simpl; [done|].
  destruct Hp as [Hstep Hrest].
  destruct (Update_period tk arena env Hrange Hstep) as [Hs Ht].
  destruct (Update tk arena env) as [arena' env']. simpl in *.
  rewrite Hs. f_equal.
  rewrite <- Ht. apply IH.
  - rewrite Hs. apply period_at_range.
  - rewrite Hs, Ht. exact Hrest.
Qed.

(** Every tick follows the transition table. *)
Lemma Update_next_state tk arena env :
  MatchState (Update tk arena env).1
  = next_state (MatchState arena) (MatchTimeSec (nowMatchTime tk) arena).
Proof.
  destruct (Update_switch tk arena env) as [-> _].
  unfold updateState, next_state, MatchTimeSec.
  cbn [MatchState set_CanStartMatch matchStartTime].
  change (inject_Z autoDurationSec) with (inject_Z 10).
  change (inject_Z (autoDurationSec + pauseDurationSec)) with (inject_Z 11).
  change (inject_Z (autoDurationSec + pauseDurationSec + teleopDurationSec
                    - endgameTimeLeftSec)) with (inject_Z 121).
  change (inject_Z (autoDurationSec + pauseDurationSec + teleopDurationSec))
    with (inject_Z 151).
  destruct (Z.eqb_spec (MatchState arena) PRE_MATCH) as [Hs|_];
    [rewrite Hs; exact Hs|].
  destruct (Z.eqb_spec (MatchState arena) START_MATCH) as [Hs|_];
    [reflexivity|].
  destruct (Z.eqb_spec (MatchState arena) AUTO_PERIOD) as [Hs|_];
    [rewrite Hs; cbn [orb]; by destruct (geQ _ _)|].
  destruct (Z.eqb_spec (MatchState arena) PAUSE_PERIOD) as [Hs|_];
    [rewrite Hs; cbn [orb]; by destruct (geQ _ _)|].
  destruct (Z.eqb_spec (MatchState arena) TELEOP_PERIOD) as [Hs|_];
    [rewrite Hs; cbn [orb]; by destruct (geQ _ _)|].
  destruct (Z.eqb_spec (MatchState arena) ENDGAME_PERIOD) as [Hs|_];
    [rewrite Hs; cbn [orb]; by destruct (geQ _ _)|].
  reflexivity.
Qed.

End Ticking.

(** ** The loop period and the pace of the ticks *)

Lemma geQ_Seconds d n :
  geQ (Seconds d) (inject_Z n) = (n * 1000000000 <=? d).
Proof.
  unfold geQ, Qle_bool, Seconds, inject_Z. simpl. by rewrite Z.mul_1_r.
Qed.

Lemma period_at_Seconds_step d d' :
  d ≤ d' ≤ d + 1000000000 →
  period_at (Seconds d) ≤ period_at (Seconds d') ≤ period_at (Seconds d) + 1.
Proof.
  intros Hd. unfold period_at. rewrite !geQ_Seconds.
  unfold AUTO_PERIOD, PAUSE_PERIOD, TELEOP_PERIOD, ENDGAME_PERIOD, POST_MATCH.
  repeat case_match;
    repeat match goal with
      | H : (_ <=? _) = true |- _ => apply Z.leb_le in H
      | H : (_ <=? _) = false |- _ => apply Z.leb_gt in H
      end; lia.
Qed.

(** Ticks whose clock readings never go back and are at most one second
    apart, as those of the 10 ms loop of [Run] are, never skip a period. *)
Lemma steady_paced start prev tks :
  steady prev (map nowMatchTime tks) →
  paced (period_at (Seconds (prev - start)))
        (map (λ tk, period_at (elapsed start tk)) tks).
Proof.
  revert prev. induction tks as [|tk rest IH]; intros prev; simpl; [done|].
  intros [Hstep Hrest]. split.
  - unfold elapsed. apply period_at_Seconds_step. lia.
  - apply IH, Hrest.
Qed.

Lemma steady_paced_start start tks :
  steady start (map nowMatchTime tks) →
  paced AUTO_PERIOD (map (λ tk, period_at (elapsed start tk)) tks).
Proof.
  intros H. apply (steady_paced start start) in H.
  by rewrite Z.sub_diag in H.
Qed.

(** ** The flow of a match *)

Section Flow.
Context {C : Collaborators}.

Lemma period_at_ns d : period_at (Seconds d) = period_ns d.
Proof. unfold period_at, period_ns. by rewrite !geQ_Seconds. Qed.

Lemma next_state_ns s d : next_state s (Seconds d) = step_ns s d.
Proof. unfold next_state, step_ns. by rewrite !geQ_Seconds. Qed.

(** Every tick takes the step of its state and of the nanoseconds since
    the start of the match. *)
Lemma Update_step_ns tk arena env :
  MatchState (Update tk arena env).1
  = step_ns (MatchState arena) (nowMatchTime tk - matchStartTime arena).
Proof.
  rewrite Update_next_state. unfold MatchTimeSec.
  destruct (Z.eqb_spec (MatchState arena) PRE_MATCH) as [Hs|Hpre].
  { rewrite Hs. reflexivity. }
  destruct (Z.eqb_spec (MatchState arena) POST_MATCH) as [Hs|Hpost].
  { rewrite Hs. reflexivity. }
  apply next_state_ns.
Qed.

(** The start time is written by the tick that leaves [START_MATCH], and
    by no other. *)
Lemma Update_start_time tk arena env :
  MatchState arena ≠ START_MATCH →
  matchStartTime (Update tk arena env).1 = matchStartTime arena.
Proof.
  intros Hs. destruct (Update_switch tk arena env) as [_ ->].
  unfold updateState. cbn [MatchState set_CanStartMatch matchStartTime].
  apply Z.eqb_neq in Hs. rewrite Hs.
  repeat match goal with
    | |- context [if ?b then _ else _] => destruct b
    end; reflexivity.
Qed.

Lemma step_ns_not_start s d : s ≠ START_MATCH → step_ns s d ≠ START_MATCH.
Proof.
  unfold step_ns, START_MATCH, AUTO_PERIOD, PAUSE_PERIOD, TELEOP_PERIOD,
    ENDGAME_PERIOD, POST_MATCH.
  intros Hs.
  repeat match goal with
    | |- context [?a =? ?b] => destruct (Z.eqb_spec a b)
    end;
    repeat case_match; lia.
Qed.

(** A step never goes back and never skips a state. *)
Lemma step_ns_next s d :
  AUTO_PERIOD ≤ s ≤ POST_MATCH →
  s ≤ step_ns s d ≤ s + 1 ∧ AUTO_PERIOD ≤ step_ns s d ≤ POST_MATCH.
Proof.
  unfold step_ns, START_MATCH, AUTO_PERIOD, PAUSE_PERIOD, TELEOP_PERIOD,
    ENDGAME_PERIOD, POST_MATCH.
  intros Hs.
  repeat match goal with
    | |- context [?a =? ?b] => destruct (Z.eqb_spec a b)
    end;
    repeat case_match; lia.
Qed.

(** A step to the period of the elapsed time, when that period is the
    current one or the next. *)
Lemma step_ns_period s d :
  AUTO_PERIOD ≤ s ≤ POST_MATCH →
  s ≤ period_ns d ≤ s + 1 →
  step_ns s d = period_ns d.
Proof.
  unfold step_ns, period_ns, START_MATCH, AUTO_PERIOD, PAUSE_PERIOD,
    TELEOP_PERIOD, ENDGAME_PERIOD, POST_MATCH.
  intros Hs.
  repeat match goal with
    | |- context [?a =? ?b] => destruct (Z.eqb_spec a b)
    end;
    repeat match goal with
      | |- context [?a <=? ?b] => destruct (Z.leb_spec a b)
      end; lia.
Qed.

(** The states along a series of ticks after the start. *)
Lemma run_flow tks arena env :
  MatchState arena ≠ START_MATCH →
  map MatchState (run tks arena env)
  = flow (MatchState arena) (matchStartTime arena) tks.
Proof.
  revert arena env. induction tks as [|tk rest IH]; intros arena env Hs;
    simpl; [done|].
  pose proof (Update_step_ns tk arena env) as Hstep.
  pose proof (Update_start_time tk arena env Hs) as Htime.
  destruct (Update tk arena env) as [arena' env']. simpl in *.
  rewrite Hstep at 1. f_equal.
  rewrite <- Hstep, <- Htime. apply IH.
  rewrite Hstep. by apply step_ns_not_start.
Qed.

Lemma flow_paced s start tks :
  AUTO_PERIOD ≤ s ≤ POST_MATCH →
  paced s (flow s start tks).
Proof.
  revert s. induction tks as [|tk rest IH]; intros s Hs; simpl; [done|].
  destruct (step_ns_next s (nowMatchTime tk - start) Hs) as [Hstep Hrange].
  split; [done|]. by apply IH.
Qed.

Lemma flow_periods s start tks :
  AUTO_PERIOD ≤ s ≤ POST_MATCH →
  paced s (map (λ tk, period_ns (nowMatchTime tk - start)) tks) →
  flow s start tks = map (λ tk, period_ns (nowMatchTime tk - start)) tks.
Proof.
  revert s. induction tks as [|tk rest IH]; intros s Hs; simpl; [done|].
  intros [Hstep Hrest].
  rewrite (step_ns_period s _ Hs Hstep). f_equal.
  apply IH; [|done].
  destruct (step_ns_next s (nowMatchTime tk - start) Hs) as [_ Hrange].
  by rewrite (step_ns_period s _ Hs Hstep) in Hrange.
Qed.

Lemma steady_periods start prev tks :
  steady prev (map nowMatchTime tks) →
  paced (period_ns (prev - start))
        (map (λ tk, period_ns (nowMatchTime tk - start)) tks).
Proof.
  intros H. apply (steady_paced start) in H.
  rewrite period_at_ns in H.
  erewrite map_ext; [exact H|].
  intros tk. unfold elapsed. by rewrite period_at_ns.
Qed.

(** C3, as amended. After a successful [StartMatch] the state is
    [START_MATCH]. Every call of [Update] then takes at most one step: it
    leaves [START_MATCH] for [AUTO_PERIOD] at once and leaves
    [AUTO_PERIOD], [PAUSE_PERIOD], [TELEOP_PERIOD] and [ENDGAME_PERIOD]
    when the time since the start has reached 10, 11, 121 and 151 seconds
    (the tests are [>=], on nanoseconds here). So the states along the
    ticks are [AUTO_PERIOD], [PAUSE_PERIOD], [TELEOP_PERIOD],
    [ENDGAME_PERIOD] and [POST_MATCH] in this order, never going back and
    never skipping one. When from one tick to the next the elapsed time
    never skips a whole period, as with ticks at most one second apart,
    the state after each tick is the period of the elapsed time: each
    state is entered at the first tick at which the elapsed time has
    reached 0, 10, 11, 121 and 151 seconds. *)
Theorem Update_match_flow order arena0 arena env tk0 tks :
  StartMatch order arena0 = (None, arena) →
  let periods := map (λ tk, period_ns (nowMatchTime tk - nowStart tk0)) tks in
  MatchState arena = START_MATCH
  ∧ (∀ tk a e,
       MatchState (Update tk a e).1
       = step_ns (MatchState a) (nowMatchTime tk - matchStartTime a))
  ∧ map MatchState (run (tk0 :: tks) arena env)
    = AUTO_PERIOD :: flow AUTO_PERIOD (nowStart tk0) tks
  ∧ paced AUTO_PERIOD (flow AUTO_PERIOD (nowStart tk0) tks)
  ∧ (paced AUTO_PERIOD periods →
       map MatchState (run (tk0 :: tks) arena env) = AUTO_PERIOD :: periods)
  ∧ (steady (nowStart tk0) (map nowMatchTime tks) →
       map MatchState (run (tk0 :: tks) arena env) = AUTO_PERIOD :: periods).
Proof.
  intros Hstart periods.
  assert (Hs : MatchState arena = START_MATCH).
  { unfold StartMatch in Hstart.
    destruct (CheckCanStartMatch order arena0); by simplify_eq. }
  assert (Hrange : AUTO_PERIOD ≤ AUTO_PERIOD ≤ POST_MATCH)
    by (unfold AUTO_PERIOD, POST_MATCH; lia).
  assert (Hrun : map MatchState (run (tk0 :: tks) arena env)
                 = AUTO_PERIOD :: flow AUTO_PERIOD (nowStart tk0) tks).
  { simpl. destruct (Update_start tk0 arena env Hs) as [Hs1 Ht1].
    destruct (Update tk0 arena env) as [arena1 env1]. simpl in *.
    rewrite Hs1. f_equal. rewrite <- Hs1, <- Ht1. apply run_flow.
    by rewrite Hs1. }
  split; [done|]. split; [apply Update_step_ns|]. split; [done|].
  split; [by apply flow_paced|].
  assert (Hpaced : paced AUTO_PERIOD periods →
            map MatchState (run (tk0 :: tks) arena env) = AUTO_PERIOD :: periods).
  { intros Hp. rewrite Hrun. f_equal. by apply flow_periods. }
  split; [done|].
  intros Hsteady. apply Hpaced.
  apply (steady_periods (nowStart tk0)) in Hsteady.
  by rewrite Z.sub_diag in Hsteady.
Qed.

End Flow.

(** ** Setup *)

(** [Setup] leaves the six stations empty, the state [PRE_MATCH] and the
    test match loaded, and calls no collaborator. *)
Lemma Setup_spec {C : Collaborators} arena (env : Env) :
  Setup arena env
  = (set_currentMatch (Some testMatch)
       (set_MatchState PRE_MATCH (set_AllianceStations newStations arena)),
     env).
Proof. reflexivity. Qed.

Lemma Setup_six_stations {C : Collaborators} arena (env : Env) :
  six_stations (Setup arena env).1.
Proof.
  rewrite Setup_spec. unfold six_stations. simpl.
  apply (bool_decide_unpack _). vm_compute. reflexivity.
Qed.

Lemma Setup_zeroArena {C : Collaborators} (env : Env) :
  Setup zeroArena env = (emptyArena PRE_MATCH, env).
Proof. reflexivity. Qed.

(** ** The properties at concrete arenas *)

(** C2, at a dispatch with [enabled] true to an arena whose station R1
    holds a connection and is bypassed. *)
Lemma sendDsPacket_disabled_witness :
  let st := set_Bypass true (boundTo 254 true) in
  let arena := arenaWith st bypassed bypassed bypassed bypassed bypassed AUTO_PERIOD in
  let env := simEnv (mkSim [254] false false) in
  ∃ new,
    calls (sendDsPacket (C:=sim) stationKeys 7 true true arena env).2
    = new ++ calls env
    ∧ (∃ c, CallUpdate "R1" c ∈ new)
    ∧ (∀ c, CallUpdate "R1" c ∈ new →
         Enabled c = false ∧ Auto c = true
         ∧ c = set_Enabled false (set_Auto true (connFor 254 true)))
    ∧ (∃ st' c',
         AllianceStations
           (sendDsPacket (C:=sim) stationKeys 7 true true arena env).1 !! "R1"
         = Some st'
         ∧ DsConn st' = Some c' ∧ Enabled c' = false).
Proof.
  intros st arena env.
  apply (sendDsPacket_disabled (C:=sim) stationKeys 7 true true arena env
           "R1" st (connFor 254 true)).
  - unfold range_order. apply (bool_decide_unpack _). vm_compute. reflexivity.
  - vm_compute. reflexivity.
  - reflexivity.
  - right. reflexivity.
Defined.

(** C3 as amended, at the ticks of the specification: elapsed times 0,
    10, 11, 121 and 151 seconds after a start at the clock reading of 5
    seconds. *)
Lemma Update_match_flow_witness :
  let arena0 := bypassedArena PRE_MATCH in
  let arena := set_MatchState START_MATCH arena0 in
  let env := simEnv (mkSim [] false false) in
  StartMatch stationKeys arena0 = (None, arena)
  ∧ map MatchState
      (run (C:=sim)
         [tickAt 5000000000; tickAt 15000000000; tickAt 16000000000;
          tickAt 126000000000; tickAt 156000000000] arena env)
    = [AUTO_PERIOD; PAUSE_PERIOD; TELEOP_PERIOD; ENDGAME_PERIOD; POST_MATCH].
Proof.
  intros arena0 arena env.
  assert (Hstart : StartMatch stationKeys arena0 = (None, arena)).
  { vm_compute. reflexivity. }
  split; [exact Hstart|].
  destruct (Update_match_flow (C:=sim) stationKeys arena0 arena env
              (tickAt 5000000000)
              [tickAt 15000000000; tickAt 16000000000;
               tickAt 126000000000; tickAt 156000000000] Hstart)
    as (_ & _ & _ & _ & Hpaced & _).
  apply Hpaced. vm_compute. intuition discriminate.
Defined.

(** C3 as stated fails: after a start at the clock reading of 5 seconds,
    the next tick comes 12 seconds after the start. It is the first tick
    at which the elapsed time has reached 10 seconds, and also the first
    at which it has reached 11 seconds, and it leaves the arena in
    [PAUSE_PERIOD]; [TELEOP_PERIOD] is entered only by the tick after
    it. *)
Lemma Update_match_flow_counterexample :
  let arena0 := bypassedArena PRE_MATCH in
  let arena := set_MatchState START_MATCH arena0 in
  let env := simEnv (mkSim [] false false) in
  let tk0 := tickAt 5000000000 in
  let tk1 := tickAt 17000000000 in
  let tk2 := tickAt 17010000000 in
  StartMatch stationKeys arena0 = (None, arena)
  ∧ nowMatchTime tk0 - nowStart tk0 < 11000000000
  ∧ 11000000000 ≤ nowMatchTime tk1 - nowStart tk0
  ∧ map MatchState (run (C:=sim) [tk0; tk1; tk2] arena env)
    = [AUTO_PERIOD; PAUSE_PERIOD; TELEOP_PERIOD]
  ∧ PAUSE_PERIOD ≠ TELEOP_PERIOD.
Proof.
  intros arena0 arena env tk0 tk1 tk2.
  split; [vm_compute; reflexivity|].
  split; [vm_compute; reflexivity|].
  split; [vm_compute; discriminate|].
  split; [vm_compute; reflexivity|].
  vm_compute. discriminate.
Qed.

(** C5 fails on the code: the store knows team 254, the constructor of the
    connection fails, and [AssignTeam] returns the error with team 254
    bound to the slot and no connection. *)
Example AssignTeam_construction_error_half_bound :
  let arena := emptyArena PRE_MATCH in
  let env := simEnv (mkSim [254] true false) in
  AllianceStations arena !! "R1" = Some newAllianceStation
  ∧ (AssignTeam (C:=sim) 254 "R1" arena env).1.1
    = Some (ErrCollaborator "dial failed")
  ∧ AllianceStations (AssignTeam (C:=sim) 254 "R1" arena env).1.2 !! "R1"
    = Some {| DsConn := None; EmergencyStop := false; Bypass := false;
              team := Some (mkTeam 254) |}.
Proof. vm_compute. done. Qed.

(** C6 as stated fails: in [POST_MATCH], [LoadMatch] does not proceed. *)
Lemma LoadMatch_permitted_counterexample :
  let arena := emptyArena POST_MATCH in
  let env := simEnv (mkSim [] false false) in
  MatchState arena = POST_MATCH
  ∧ LoadMatch (C:=sim) testMatch arena env = ((Some ErrLoadInProgress, arena), env).
Proof. split; reflexivity. Qed.

(** C7, at an arena in [POST_MATCH] whose six stations are bypassed. *)
Lemma ResetMatch_spec_witness :
  ∃ arena',
    ResetMatch (bypassedArena POST_MATCH) = Some (None, arena')
    ∧ MatchState arena' = PRE_MATCH
    ∧ (∀ k, k ∈ stationKeys →
         ∃ st st',
           AllianceStations (bypassedArena POST_MATCH) !! k = Some st
           ∧ AllianceStations arena' !! k = Some st'
           ∧ Bypass st' = false
           ∧ EmergencyStop st' = EmergencyStop st
           ∧ team st' = team st
           ∧ DsConn st' = DsConn st).
Proof.
  assert (Hsix : six_stations (bypassedArena POST_MATCH)).
  { unfold six_stations. apply (bool_decide_unpack _). vm_compute. reflexivity. }
  destruct (proj1 (ResetMatch_spec (bypassedArena POST_MATCH) Hsix)
              (or_introl eq_refl)) as (arena' & H1 & H2 & H3 & _).
  exists arena'. split; [exact H1|]. split; [exact H2|exact H3].
Defined.

(** C8 as stated fails: closing the connection of station R1 fails, and
    [AssignTeam] with team number 0 returns the error and leaves the slot
    with its team and its connection. *)
Lemma AssignTeam_zero_counterexample :
  let arena :=
    arenaWith (boundTo 254 true) newAllianceStation newAllianceStation
              newAllianceStation newAllianceStation newAllianceStation
              PRE_MATCH in
  let env := simEnv (mkSim [254] false true) in
  (AssignTeam (C:=sim) 0 "R1" arena env).1.1
  = Some (ErrCollaborator "close failed")
  ∧ AllianceStations (AssignTeam (C:=sim) 0 "R1" arena env).1.2 !! "R1"
    = Some (boundTo 254 true)
  ∧ team (boundTo 254 true) = Some (mkTeam 254)
  ∧ DsConn (boundTo 254 true) = Some (connFor 254 true).
Proof. vm_compute. done. Qed.

(** The two other conditions of [AssignTeam_zero] are needed as well. A
    connection for team number 0 makes the call the no-op of the
    same-team test, and a slot that holds a team without a connection
    keeps its team. *)
Example AssignTeam_zero_same_team :
  let arena :=
    arenaWith (boundTo 0 true) newAllianceStation newAllianceStation
              newAllianceStation newAllianceStation newAllianceStation
              PRE_MATCH in
  let env := simEnv (mkSim [] false false) in
  AssignTeam (C:=sim) 0 "R1" arena env = ((None, arena), env).
Proof. reflexivity. Qed.

Example AssignTeam_zero_keeps_team :
  let arena :=
    arenaWith (set_team (Some (mkTeam 254)) newAllianceStation)
              newAllianceStation newAllianceStation
              newAllianceStation newAllianceStation newAllianceStation
              PRE_MATCH in
  let env := simEnv (mkSim [254] false false) in
  AssignTeam (C:=sim) 0 "R1" arena env = ((None, arena), env).
Proof. reflexivity. Qed.

(** C8 as amended, at a station bound to team 254 whose connection closes
    without error. *)
Lemma AssignTeam_zero_witness :
  let st := boundTo 254 true in
  let arena :=
    arenaWith st newAllianceStation newAllianceStation
              newAllianceStation newAllianceStation newAllianceStation
              PRE_MATCH in
  let env := simEnv (mkSim [254] false false) in
  ∃ arena' env',
    AssignTeam (C:=sim) 0 "R1" arena env = ((None, arena'), env')
    ∧ AllianceStations arena' !! "R1" = Some (released st)
    ∧ DsConn (released st) = None ∧ team (released st) = None
    ∧ (∀ k, k ≠ "R1"%string →
         AllianceStations arena' !! k = AllianceStations arena !! k)
    ∧ calls env'
      = match DsConn st with
        | Some dsConn => CallClose "R1" dsConn :: calls env
        | None => calls env
        end
    ∧ AssignTeam (C:=sim) 0 "R1" arena' env' = ((None, arena'), env').
Proof.
  intros st arena env.
  apply (AssignTeam_zero (C:=sim) "R1" arena env st).
  - vm_compute. reflexivity.
  - unfold consistent. simpl. discriminate.
  - intros dsConn [= <-]. split; [simpl; lia|reflexivity].
Defined.

(** C9, at a station bound to team 254 whose connection fails to close,
    when team 1114 is assigned to it. *)
Lemma AssignTeam_close_error_witness :
  let arena :=
    arenaWith (boundTo 254 true) newAllianceStation newAllianceStation
              newAllianceStation newAllianceStation newAllianceStation
              PRE_MATCH in
  let w := mkSim [254; 1114] false true in
  AssignTeam (C:=sim) 1114 "R1" arena (simEnv w)
  = ((Some (ErrCollaborator "close failed"), arena),
     @mkEnv sim w [CallClose "R1" (connFor 254 true)]).
Proof.
  intros arena w.
  apply (AssignTeam_close_error (C:=sim) 1114 "R1" arena (simEnv w)
           (boundTo 254 true) (connFor 254 true) "close failed" w).
  - vm_compute. reflexivity.
  - reflexivity.
  - simpl. lia.
  - reflexivity.
Defined.

(** C10, at an arena in [POST_MATCH]. *)
Lemma Update_idle_witness :
  MatchState
    (Update (C:=sim) (tickAt 1000) (emptyArena POST_MATCH)
       (simEnv (mkSim [] false false))).1
  = MatchState (emptyArena POST_MATCH).
Proof.
  apply (Update_idle (C:=sim)). right. reflexivity.
Defined.

(** ** More on team assignment *)

Section AssignmentMore.
Context {C : Collaborators}.

Lemma stations_related_refl (R : AllianceStation → AllianceStation → Prop) arena :
  (∀ st, R st st) → stations_related R arena arena.
Proof. intros HR k. by destruct (AllianceStations arena !! k). Qed.

Lemma stations_related_trans (R : AllianceStation → AllianceStation → Prop) a1 a2 a3 :
  (∀ x y z, R x y → R y z → R x z) →
  stations_related R a1 a2 → stations_related R a2 a3 → stations_related R a1 a3.
Proof.
  intros HR H12 H23 k. specialize (H12 k). specialize (H23 k).
  destruct (AllianceStations a1 !! k), (AllianceStations a2 !! k),
    (AllianceStations a3 !! k); try done. by eapply HR.
Qed.

Lemma stations_related_with_station (R : AllianceStation → AllianceStation → Prop)
    k f arena :
  (∀ st, R st st) → (∀ st, R st (f st)) →
  stations_related R arena (with_station k f arena).
Proof.
  intros Hrefl Hf k'. destruct (decide (k = k')) as [->|Hne].
  - rewrite with_station_lookup.
    by destruct (AllianceStations arena !! k'); simpl.
  - rewrite with_station_lookup_ne by done.
    by destruct (AllianceStations arena !! k').
Qed.

Lemma same_flags_refl st : same_flags st st.
Proof. done. Qed.

Lemma same_flags_trans x y z : same_flags x y → same_flags y z → same_flags x z.
Proof. unfold same_flags. intros [? ?] [? ?]. split; congruence. Qed.

(** Two assignments to the fields of the station at [k]. *)
Lemma paired_with_station2 k f g arena :
  (∀ st, is_Some (DsConn (f (g st))) → is_Some (team (f (g st)))) →
  paired arena → paired (with_station k f (with_station k g arena)).
Proof.
  intros Hfg Hp k' st'. destruct (decide (k = k')) as [->|Hne].
  - rewrite !with_station_lookup.
    destruct (AllianceStations arena !! k') as [st|]; [|done].
    simpl. intros [= <-]. apply Hfg.
  - rewrite !with_station_lookup_ne by done. apply Hp.
Qed.

(** What the second half of [AssignTeam] keeps. *)
Lemma AssignTeam_load_keeps teamId station arena env :
  let arena' := (AssignTeam_load teamId station arena env).1.2 in
  stations_related same_flags arena arena'
  ∧ (∀ k, k ≠ station →
       AllianceStations arena' !! k = AllianceStations arena !! k)
  ∧ (paired arena → paired arena')
  ∧ CanStartMatch arena' = CanStartMatch arena
  ∧ matchStartTime arena' = matchStartTime arena
  ∧ lastDsPacketTime arena' = lastDsPacketTime arena.
Proof.
  unfold AssignTeam_load, bind, ret.
  destruct (teamId =? 0).
  { simpl. split; [by apply stations_related_refl|done]. }
  unfold call_GetTeamById.
  destruct (db_GetTeamById teamId (world env)) as [[[t|] [e|]] w]; simpl;
    try (split; [by apply stations_related_refl|done]).
  unfold call_NewDriverStationConnection. simpl.
  destruct (NewDriverStationConnection (Id t) station w) as [[c e] w']. simpl.
  assert (Hgoal :
    let arena' := with_station station (set_DsConn c)
                    (with_station station (set_team (Some t)) arena) in
    stations_related same_flags arena arena'
    ∧ (∀ k, k ≠ station →
         AllianceStations arena' !! k = AllianceStations arena !! k)
    ∧ (paired arena → paired arena')
    ∧ CanStartMatch arena' = CanStartMatch arena
    ∧ matchStartTime arena' = matchStartTime arena
    ∧ lastDsPacketTime arena' = lastDsPacketTime arena).
  { split.
    { eapply stations_related_trans; [apply same_flags_trans| |];
        by apply stations_related_with_station. }
    split. { intros k Hk. by rewrite !with_station_lookup_ne. }
    split; [|done].
    apply paired_with_station2. simpl. by eauto. }
  by destruct e.
Qed.

(** What [AssignTeam] keeps. *)
Lemma AssignTeam_frame teamId station arena env :
  let arena' := (AssignTeam teamId station arena env).1.2 in
  stations_related same_flags arena arena'
  ∧ (∀ k, k ≠ station →
       AllianceStations arena' !! k = AllianceStations arena !! k)
  ∧ (paired arena → paired arena')
  ∧ MatchState arena' = MatchState arena
  ∧ currentMatch arena' = currentMatch arena
  ∧ CanStartMatch arena' = CanStartMatch arena
  ∧ matchStartTime arena' = matchStartTime arena
  ∧ lastDsPacketTime arena' = lastDsPacketTime arena.
Proof.
  intros arena'.
  destruct (AssignTeam_assignment teamId station arena env) as (Hs & Hm & _ & _).
  fold arena' in Hs, Hm.
  cut (stations_related same_flags arena arena'
       ∧ (∀ k, k ≠ station →
            AllianceStations arena' !! k = AllianceStations arena !! k)
       ∧ (paired arena → paired arena')
       ∧ CanStartMatch arena' = CanStartMatch arena
       ∧ matchStartTime arena' = matchStartTime arena
       ∧ lastDsPacketTime arena' = lastDsPacketTime arena).
  { intros (? & ? & ? & ? & ? & ?). done. }
  clear Hs Hm. subst arena'. unfold AssignTeam.
  destruct (AllianceStations arena !! station) as [st|] eqn:Hst;
    [|simpl; split; [by apply stations_related_refl|done]].
  destruct (DsConn st) as [dsConn|] eqn:Hc;
    [|apply AssignTeam_load_keeps].
  destruct (TeamId dsConn =? teamId);
    [simpl; split; [by apply stations_related_refl|done]|].
  unfold bind, call_Close.
  destruct (ds_Close dsConn (world env)) as [[e|] w]; simpl;
    [split; [by apply stations_related_refl|done]|].
  match goal with
  | |- context [AssignTeam_load _ _ ?a ?e] =>
      destruct (AssignTeam_load_keeps teamId station a e)
        as (Hrel & Hother & Hp & H1 & H2 & H3);
      set (arena1 := a) in *
  end.
  split.
  { eapply stations_related_trans; [apply same_flags_trans| |exact Hrel].
    eapply stations_related_trans; [apply same_flags_trans| |];
      by apply stations_related_with_station. }
  split.
  { intros k Hk. rewrite (Hother k Hk). subst arena1.
    by rewrite !with_station_lookup_ne. }
  split; [|done].
  intros Hpaired. apply Hp. subst arena1.
  apply paired_with_station2; [|done]. simpl. by intros ? [? ?].
Qed.

(** X1. [AssignTeam] writes nothing but the team and the connection of the
    named slot: the emergency stop and the bypass of every station, every
    other station, the set of stations and the other fields of the arena
    are as before; and if every station with a connection had a team
    before, the same holds after. *)
Theorem AssignTeam_keeps teamId station arena env :
  let arena' := (AssignTeam teamId station arena env).1.2 in
  (∀ k, is_Some (AllianceStations arena' !! k)
        ↔ is_Some (AllianceStations arena !! k))
  ∧ (∀ k st st',
       AllianceStations arena !! k = Some st →
       AllianceStations arena' !! k = Some st' →
       EmergencyStop st' = EmergencyStop st ∧ Bypass st' = Bypass st
       ∧ (k ≠ station → st' = st))
  ∧ (paired arena → paired arena')
  ∧ MatchState arena' = MatchState arena
  ∧ currentMatch arena' = currentMatch arena
  ∧ CanStartMatch arena' = CanStartMatch arena
  ∧ matchStartTime arena' = matchStartTime arena
  ∧ lastDsPacketTime arena' = lastDsPacketTime arena.
Proof.
  intros arena'.
  pose proof (AssignTeam_frame teamId station arena env) as H.
  cbv zeta in H. fold arena' in H.
  destruct H as (Hrel & Hother & Hp & Hrest).
  split.
  { intros k. specialize (Hrel k).
    destruct (AllianceStations arena !! k), (AllianceStations arena' !! k);
      try done; split; by eauto. }
  split; [|done].
  intros k st st' Hst Hst'. specialize (Hrel k). rewrite Hst, Hst' in Hrel.
  destruct Hrel as [He Hb]. split; [done|]. split; [done|].
  intros Hk. specialize (Hother k Hk). congruence.
Qed.

Lemma AssignTeam_load_errors teamId station arena env e :
  (AssignTeam_load teamId station arena env).1.1 = Some e →
  e = ErrInvalidTeam teamId ∨ ∃ msg, e = ErrCollaborator msg.
Proof.
  unfold AssignTeam_load, bind, ret.
  destruct (teamId =? 0); [done|].
  unfold call_GetTeamById.
  destruct (db_GetTeamById teamId (world env)) as [[[t|] [msg|]] w]; simpl;
    try (intros [= <-]; eauto; fail).
  unfold call_NewDriverStationConnection. simpl.
  destruct (NewDriverStationConnection (Id t) station w) as [[c [msg|]] w'];
    simpl; [|done].
  intros [= <-]. eauto.
Qed.

(** X2. [AssignTeam] returns the invalid-station error exactly when the
    key is not a station of the arena; it then names that key, calls no
    collaborator and leaves the arena as it was. *)
Theorem AssignTeam_invalid_station teamId station arena env :
  (AllianceStations arena !! station = None →
     AssignTeam teamId station arena env
     = ((Some (ErrInvalidStation station), arena), env))
  ∧ (∀ e, (AssignTeam teamId station arena env).1.1 = Some e →
       kind_of e = InvalidStation →
       AllianceStations arena !! station = None ∧ e = ErrInvalidStation station).
Proof.
  split.
  - intros Hst. unfold AssignTeam. by rewrite Hst.
  - intros e. unfold AssignTeam.
    destruct (AllianceStations arena !! station) as [st|];
      [|by intros [= <-]].
    intros He Hk. exfalso. revert He.
    destruct (DsConn st) as [dsConn|].
    + destruct (TeamId dsConn =? teamId); [done|].
      unfold bind, call_Close.
      destruct (ds_Close dsConn (world env)) as [[msg|] w]; simpl.
      * intros [= <-]. done.
      * intros He. apply AssignTeam_load_errors in He as [->|[msg ->]]; done.
    + intros He. apply AssignTeam_load_errors in He as [->|[msg ->]]; done.
Qed.

(** X3. A successful replacement releases before it acquires. When the
    slot holds no connection, or one for another team that closes without
    error, the store knows the team and the constructor returns a
    connection, [AssignTeam] returns nil with the slot bound to the team
    and the new connection, its flags and the other slots as before. The
    calls are, in this order: [Close] on the old connection if there was
    one, the lookup of the team, the constructor with the identifier of
    the team found. *)
Theorem AssignTeam_binds teamId station arena env st w1 t w2 c w3 :
  AllianceStations arena !! station = Some st →
  teamId ≠ 0 →
  match DsConn st with
  | Some old => TeamId old ≠ teamId ∧ ds_Close old (world env) = (None, w1)
  | None => w1 = world env
  end →
  db_GetTeamById teamId w1 = ((Some t, None), w2) →
  NewDriverStationConnection (Id t) station w2 = ((Some c, None), w3) →
  ∃ arena',
    AssignTeam teamId station arena env
    = ((None, arena'),
       mkEnv w3
         (CallNewDriverStationConnection (Id t) station
          :: CallGetTeamById teamId
          :: match DsConn st with
             | Some old => [CallClose station old]
             | None => []
             end ++ calls env))
    ∧ AllianceStations arena' !! station
      = Some {| DsConn := Some c; EmergencyStop := EmergencyStop st;
                Bypass := Bypass st; team := Some t |}
    ∧ (∀ k, k ≠ station →
         AllianceStations arena' !! k = AllianceStations arena !! k).
Proof.
  intros Hst Hne Hold Hget Hnew. unfold AssignTeam. rewrite Hst.
  apply Z.eqb_neq in Hne.
  destruct (DsConn st) as [old|] eqn:Hc.
  - destruct Hold as [Hother Hclose]. apply Z.eqb_neq in Hother.
    rewrite Hother. unfold bind, call_Close. rewrite Hclose. simpl.
    unfold AssignTeam_load, bind, call_GetTeamById. rewrite Hne. simpl.
    rewrite Hget. simpl. unfold call_NewDriverStationConnection. simpl.
    rewrite Hnew. simpl. eexists. split; [reflexivity|]. split.
    + rewrite !with_station_lookup, Hst. reflexivity.
    + intros k Hk. by rewrite !with_station_lookup_ne.
  - subst w1.
    unfold AssignTeam_load, bind, call_GetTeamById. rewrite Hne.
    rewrite Hget. simpl. unfold call_NewDriverStationConnection. simpl.
    rewrite Hnew. simpl. eexists. split; [reflexivity|]. split.
    + rewrite !with_station_lookup, Hst. reflexivity.
    + intros k Hk. by rewrite !with_station_lookup_ne.
Qed.

(** X4. When the lookup of the team fails, by an error of the store or
    because the store has no such team, the previous team is gone all the
    same: it has been closed and released before the lookup. [AssignTeam]
    returns the error of the store, or the invalid-team error naming the
    number asked for, the slot is empty and the constructor is not
    called. *)
Theorem AssignTeam_lookup_fails teamId station arena env st old w1 r w2 :
  AllianceStations arena !! station = Some st →
  DsConn st = Some old →
  TeamId old ≠ teamId →
  teamId ≠ 0 →
  ds_Close old (world env) = (None, w1) →
  db_GetTeamById teamId w1 = (r, w2) →
  r.1 = None ∨ is_Some r.2 →
  ∃ arena',
    AssignTeam teamId station arena env
    = ((Some (match r.2 with
              | Some msg => ErrCollaborator msg
              | None => ErrInvalidTeam teamId
              end), arena'),
       mkEnv w2 (CallGetTeamById teamId :: CallClose station old :: calls env))
    ∧ AllianceStations arena' !! station = Some (released st)
    ∧ (∀ k, k ≠ station →
         AllianceStations arena' !! k = AllianceStations arena !! k).
Proof.
  intros Hst Hc Hother Hne Hclose Hget Hfail. unfold AssignTeam.
  rewrite Hst, Hc. apply Z.eqb_neq in Hother, Hne. rewrite Hother.
  unfold bind, call_Close. rewrite Hclose. simpl.
  unfold AssignTeam_load, bind, call_GetTeamById. rewrite Hne. simpl.
  rewrite Hget. simpl.
  assert (Hk : ∀ k, k ≠ station →
            AllianceStations
              (with_station station (set_DsConn None)
                 (with_station station (set_team None) arena)) !! k
            = AllianceStations arena !! k).
  { intros k Hk. by rewrite !with_station_lookup_ne. }
  assert (Hrel : AllianceStations
              (with_station station (set_DsConn None)
                 (with_station station (set_team None) arena)) !! station
            = Some (released st)).
  { by rewrite !with_station_lookup, Hst. }
  destruct r as [[t|] [msg|]]; simpl in *.
  - eexists. split; [reflexivity|done].
  - destruct Hfail as [?|[? ?]]; done.
  - eexists. split; [reflexivity|done].
  - eexists. split; [reflexivity|done].
Qed.

(** X5. Assigning the same team again is a no-op. With a store that
    returns the team asked for and a constructor that returns, when it
    returns no error, a connection for the team it was given, an
    [AssignTeam] of a nonzero team that has returned nil is followed by an
    [AssignTeam] of the same team to the same station that returns nil,
    calls no collaborator and changes nothing. *)
Theorem AssignTeam_again teamId station arena env arena' env' :
  (∀ id w t e w', db_GetTeamById id w = ((Some t, e), w') → Id t = id) →
  (∀ id k w r w', NewDriverStationConnection id k w = ((r, None), w') →
     ∃ c, r = Some c ∧ TeamId c = id) →
  teamId ≠ 0 →
  AssignTeam teamId station arena env = ((None, arena'), env') →
  AssignTeam teamId station arena' env' = ((None, arena'), env').
Proof.
  intros Hstore Hdial Hne. unfold AssignTeam at 1.
  destruct (AllianceStations arena !! station) as [st|] eqn:Hst; [|done].
  assert (Hload : ∀ a e,
    is_Some (AllianceStations a !! station) →
    AssignTeam_load teamId station a e = ((None, arena'), env') →
    AssignTeam teamId station arena' env' = ((None, arena'), env')).
  { intros a e [st0 Hst0]. unfold AssignTeam_load, bind, call_GetTeamById.
    apply Z.eqb_neq in Hne. rewrite Hne.
    destruct (db_GetTeamById teamId (world e)) as [[[t|] [msg|]] w] eqn:Hget;
      simpl; try done.
    unfold call_NewDriverStationConnection. simpl.
    destruct (NewDriverStationConnection (Id t) station w) as [[r [msg|]] w']
      eqn:Hnew; simpl; [done|].
    intros [= <- <-].
    destruct (Hdial _ _ _ _ _ Hnew) as (c & -> & Hc).
    rewrite (Hstore _ _ _ _ _ Hget) in Hc.
    unfold AssignTeam. rewrite !with_station_lookup, Hst0. simpl.
    apply Z.eqb_eq in Hc. by rewrite Hc. }
  destruct (DsConn st) as [dsConn|] eqn:Hc.
  - destruct (TeamId dsConn =? teamId) eqn:Hsame.
    + intros [= <- <-]. unfold AssignTeam. by rewrite Hst, Hc, Hsame.
    + unfold bind, call_Close.
      destruct (ds_Close dsConn (world env)) as [[msg|] w]; simpl; [done|].
      apply Hload. rewrite !with_station_lookup, Hst. by eexists.
  - apply Hload. by eexists.
Qed.

End AssignmentMore.

(** ** More on status packets *)

Section DispatchMore.
Context {C : Collaborators}.

Lemma dispatchedStation_idem auto enabled st :
  dispatchedStation auto enabled (dispatchedStation auto enabled st)
  = dispatchedStation auto enabled st.
Proof. unfold dispatchedStation. by destruct (DsConn st). Qed.

Lemma same_binding_refl st : same_binding st st.
Proof. unfold same_binding. by destruct (DsConn st). Qed.

Lemma same_binding_trans x y z :
  same_binding x y → same_binding y z → same_binding x z.
Proof.
  unfold same_binding. intros (? & ? & ? & Hxy) (? & ? & ? & Hyz).
  repeat split; try congruence.
  destruct (DsConn x), (DsConn y), (DsConn z); try done.
  destruct Hxy, Hyz. split; congruence.
Qed.

Lemma same_binding_dispatched auto enabled st :
  same_binding st (dispatchedStation auto enabled st).
Proof. unfold same_binding, dispatchedStation. by destruct (DsConn st). Qed.

Lemma omap_pointwise {A B} (f g : A → option B) (l : list A) :
  (∀ x, f x = g x) → omap f l = omap g l.
Proof. intros H. induction l as [|x l IH]; csimpl; [done|]. by rewrite H, IH. Qed.

(** One step of the loop. *)
Lemma sendDsPacketTo_spec auto enabled k arena env :
  let r := sendDsPacketTo auto enabled k arena env in
  calls r.2
  = option_list (dispatchCall auto enabled (AllianceStations arena) k) ++ calls env
  ∧ (∀ k', AllianceStations r.1 !! k'
           = if decide (k' = k)
             then dispatchedStation auto enabled <$> AllianceStations arena !! k'
             else AllianceStations arena !! k')
  ∧ MatchState r.1 = MatchState arena
  ∧ CanStartMatch r.1 = CanStartMatch arena
  ∧ currentMatch r.1 = currentMatch arena
  ∧ matchStartTime r.1 = matchStartTime arena
  ∧ lastDsPacketTime r.1 = lastDsPacketTime arena.
Proof.
  unfold sendDsPacketTo, dispatchCall.
  destruct (AllianceStations arena !! k) as [st|] eqn:Hst; simpl.
  - destruct (DsConn st) as [c|] eqn:Hc; simpl.
    + unfold bind, call_Update, ret.
      destruct (ds_Update _ (world env)) as [e w]. cbn [fst snd calls].
      split; [done|]. split; [|done].
      intros k'. case_decide as Hk.
      * subst k'. rewrite with_station_lookup, Hst. simpl.
        unfold dispatchedStation. by rewrite Hc.
      * by rewrite with_station_lookup_ne.
    + split; [done|]. split; [|done].
      intros k'. case_decide as Hk; [|done]. subst k'. rewrite Hst. simpl.
      unfold dispatchedStation. destruct st as [c0 e0 b0 t0].
      simpl in *. by subst.
  - split; [done|]. split; [|done].
    intros k'. case_decide as Hk; [|done]. subst k'. by rewrite Hst.
Qed.

Lemma dispatchCall_after auto enabled (m m' : gmap string AllianceStation) k k' :
  (m' !! k' = if decide (k' = k) then dispatchedStation auto enabled <$> m !! k'
              else m !! k') →
  dispatchCall auto enabled m' k' = dispatchCall auto enabled m k'.
Proof.
  intros H. unfold dispatchCall. rewrite H. case_decide; [|done].
  destruct (m !! k') as [st|]; [|done]. simpl.
  unfold dispatchedStation. by destruct (DsConn st).
Qed.

(** The whole loop. *)
Lemma sendDsPacketLoop_spec auto enabled order arena env :
  let r := sendDsPacketLoop auto enabled order arena env in
  calls r.2
  = rev (omap (dispatchCall auto enabled (AllianceStations arena)) order)
    ++ calls env
  ∧ (∀ k, AllianceStations r.1 !! k
          = if decide (k ∈ order)
            then dispatchedStation auto enabled <$> AllianceStations arena !! k
            else AllianceStations arena !! k)
  ∧ MatchState r.1 = MatchState arena
  ∧ CanStartMatch r.1 = CanStartMatch arena
  ∧ currentMatch r.1 = currentMatch arena
  ∧ matchStartTime r.1 = matchStartTime arena
  ∧ lastDsPacketTime r.1 = lastDsPacketTime arena.
Proof.
  revert arena env. induction order as [|k rest IH].
  - intros arena env. simpl.
    split; [done|]. split; [|done]. intros k.
    try (case_decide as Hk; [by apply elem_of_nil in Hk|]); done.
  - intros arena env. simpl. unfold bind.
    pose proof (sendDsPacketTo_spec auto enabled k arena env) as Hstep.
    cbv zeta in Hstep.
    destruct Hstep as (Hcalls1 & Hst1 & H1 & H2 & H3 & H4 & H5).
    destruct (sendDsPacketTo auto enabled k arena env) as [arena1 env1].
    simpl in *.
    pose proof (IH arena1 env1) as Hrest. cbv zeta in Hrest.
    destruct Hrest as (Hcalls2 & Hst2 & G1 & G2 & G3 & G4 & G5).
    split.
    { rewrite Hcalls2, Hcalls1.
      rewrite (omap_pointwise _ (dispatchCall auto enabled (AllianceStations arena)))
        by (intros k'; eapply dispatchCall_after; apply Hst1).
      destruct (dispatchCall auto enabled (AllianceStations arena) k) as [call|];
        simpl; [|done].
      by rewrite <- (assoc_L (++)). }
    split; [|repeat split; congruence].
    intros k'. rewrite Hst2, Hst1.
    destruct (decide (k' = k)) as [->|Hne].
    + rewrite (decide_True (P := k ∈ k :: rest)) by apply list_elem_of_here.
      case_decide; [|done].
      destruct (AllianceStations arena !! k) as [st|]; [|done]. simpl.
      by rewrite dispatchedStation_idem.
    + destruct (decide (k' ∈ rest)) as [Hin|Hin].
      * by rewrite (decide_True (P := k' ∈ k :: rest))
          by (by apply list_elem_of_further).
      * rewrite (decide_False (P := k' ∈ k :: rest)); [done|].
        by intros [?|?]%elem_of_cons.
Qed.

Lemma dispatched_related (auto enabled : bool) (order : list string)
    (arena arena' : Arena) :
  (∀ k, AllianceStations arena' !! k
        = if decide (k ∈ order)
          then dispatchedStation auto enabled <$> AllianceStations arena !! k
          else AllianceStations arena !! k) →
  stations_related same_binding arena arena'.
Proof.
  intros H k. rewrite H.
  destruct (AllianceStations arena !! k) as [st|]; case_decide; simpl;
    try done; [apply same_binding_dispatched|apply same_binding_refl].
Qed.

(** X6. A dispatch calls [Update] once for each station visited that holds
    a connection, in the order of the visit, and calls nothing else;
    stations without a connection are passed over. The connection is
    handed over with [Auto] as given and [Enabled] true only if [enabled]
    is true and the station is neither stopped nor bypassed. No result of
    an [Update] stops the dispatch or changes a later call. Afterwards
    [lastDsPacketTime] is the clock reading, and of every station only
    [Auto] and [Enabled] of its connection may have changed. *)
Theorem sendDsPacket_spec order sent auto enabled arena env :
  let r := sendDsPacket order sent auto enabled arena env in
  calls r.2
  = rev (omap (dispatchCall auto enabled (AllianceStations arena)) order)
    ++ calls env
  ∧ (∀ k, AllianceStations r.1 !! k
          = if decide (k ∈ order)
            then dispatchedStation auto enabled <$> AllianceStations arena !! k
            else AllianceStations arena !! k)
  ∧ stations_related same_binding arena r.1
  ∧ lastDsPacketTime r.1 = sent
  ∧ MatchState r.1 = MatchState arena
  ∧ CanStartMatch r.1 = CanStartMatch arena
  ∧ currentMatch r.1 = currentMatch arena
  ∧ matchStartTime r.1 = matchStartTime arena.
Proof.
  unfold sendDsPacket, bind, ret.
  pose proof (sendDsPacketLoop_spec auto enabled order arena env) as Hloop.
  cbv zeta in Hloop.
  destruct Hloop as (Hcalls & Hst & H1 & H2 & H3 & H4 & H5).
  destruct (sendDsPacketLoop auto enabled order arena env) as [arena1 env1].
  simpl in *. split; [done|]. split; [done|].
  split; [|done].
  eapply dispatched_related. exact Hst.
Qed.

End DispatchMore.

(** ** More on the tick *)

Section TickingMore.
Context {C : Collaborators}.

(** The flags and the forced packet of the switch, by the state it
    leaves. *)
Lemma updateState_spec tk t arena :
  let r := updateState tk t arena in
  r.1.1.2 = autoState (MatchState r.1.1.1)
  ∧ r.1.2 = enabledState (MatchState r.1.1.1)
  ∧ r.2 = negb (MatchState r.1.1.1 =? MatchState arena)
          && negb (MatchState r.1.1.1 =? ENDGAME_PERIOD)
  ∧ AllianceStations r.1.1.1 = AllianceStations arena
  ∧ lastDsPacketTime r.1.1.1 = lastDsPacketTime arena
  ∧ CanStartMatch r.1.1.1 = CanStartMatch arena
  ∧ currentMatch r.1.1.1 = currentMatch arena.
Proof.
  unfold updateState, autoState, enabledState.
  destruct (Z.eqb_spec (MatchState arena) PRE_MATCH) as [Hs|H0];
    [simpl; by rewrite Hs|].
  destruct (Z.eqb_spec (MatchState arena) START_MATCH) as [Hs|H1];
    [simpl; by rewrite Hs|].
  destruct (Z.eqb_spec (MatchState arena) AUTO_PERIOD) as [Hs|H2];
    [destruct (geQ _ _); simpl; by rewrite ?Hs|].
  destruct (Z.eqb_spec (MatchState arena) PAUSE_PERIOD) as [Hs|H3];
    [destruct (geQ _ _); simpl; by rewrite ?Hs|].
  destruct (Z.eqb_spec (MatchState arena) TELEOP_PERIOD) as [Hs|H4];
    [destruct (geQ _ _); simpl; by rewrite ?Hs|].
  destruct (Z.eqb_spec (MatchState arena) ENDGAME_PERIOD) as [Hs|H5];
    [destruct (geQ _ _); simpl; by rewrite ?Hs|].
  simpl.
  destruct (Z.eqb_spec (MatchState arena) PRE_MATCH); [done|].
  destruct (Z.eqb_spec (MatchState arena) AUTO_PERIOD); [done|].
  destruct (Z.eqb_spec (MatchState arena) TELEOP_PERIOD); [done|].
  destruct (Z.eqb_spec (MatchState arena) ENDGAME_PERIOD); [done|].
  by rewrite Z.eqb_refl.
Qed.

(** [Update], with the dispatch it makes or not. *)
Lemma Update_unfold tk arena env :
  let s' := MatchState (Update tk arena env).1 in
  let due := (negb (s' =? MatchState arena) && negb (s' =? ENDGAME_PERIOD))
             || packetPeriodOver tk arena in
  calls (Update tk arena env).2
  = (if due
     then rev (omap (dispatchCall (autoState s') (enabledState s')
                       (AllianceStations arena)) (sendOrder tk))
     else []) ++ calls env
  ∧ (∀ k, AllianceStations (Update tk arena env).1 !! k
          = if due && bool_decide (k ∈ sendOrder tk)
            then dispatchedStation (autoState s') (enabledState s')
                   <$> AllianceStations arena !! k
            else AllianceStations arena !! k)
  ∧ lastDsPacketTime (Update tk arena env).1
    = (if due then nowSent tk else lastDsPacketTime arena)
  ∧ currentMatch (Update tk arena env).1 = currentMatch arena
  ∧ (due = false → (Update tk arena env).2 = env).
Proof.
  unfold Update, packetPeriodOver.
  set (arena0 := set_CanStartMatch _ arena).
  pose proof (updateState_spec tk (MatchTimeSec (nowMatchTime tk) arena0) arena0)
    as Hsw.
  cbv zeta in Hsw.
  destruct (updateState tk (MatchTimeSec (nowMatchTime tk) arena0) arena0)
    as [[[arena1 auto] enabled] sendPacket].
  simpl in Hsw. destruct Hsw as (-> & -> & -> & Hst & Hlast & _ & Hcur).
  rewrite Hlast. change (lastDsPacketTime arena0) with (lastDsPacketTime arena).
  change (MatchState arena0) with (MatchState arena).
  change (AllianceStations arena0) with (AllianceStations arena) in Hst.
  change (currentMatch arena0) with (currentMatch arena) in Hcur.
  match goal with |- context [if ?b then sendDsPacket _ _ _ _ _ else _] =>
    destruct b eqn:Hdue end.
  - pose proof (sendDsPacket_frame (sendOrder tk) (nowSent tk)
                  (autoState (MatchState arena1))
                  (enabledState (MatchState arena1)) arena1 env) as [Hs _].
    pose proof (sendDsPacketLoop_spec (autoState (MatchState arena1))
                  (enabledState (MatchState arena1)) (sendOrder tk) arena1 env)
      as Hloop.
    cbv zeta in Hloop.
    unfold sendDsPacket, bind, ret in *.
    destruct (sendDsPacketLoop _ _ (sendOrder tk) arena1 env) as [arena2 env2].
    simpl in *. rewrite Hs, Hdue.
    destruct Hloop as (Hcalls & Hk & _ & _ & Hcur2 & _ & _).
    rewrite Hst in Hcalls, Hk.
    split; [done|]. split; [|split; [done|split; [congruence|done]]].
    intros k. rewrite Hk. simpl.
    destruct (decide (k ∈ sendOrder tk)) as [Hin|Hin].
    + by rewrite bool_decide_eq_true_2.
    + by rewrite bool_decide_eq_false_2.
  - simpl. rewrite Hdue. simpl. rewrite Hst. done.
Qed.

(** The only side condition of the readiness check: the order visits
    every station. *)
Lemma CheckCanStartMatch_None order arena :
  range_order order arena →
  CheckCanStartMatch order arena = None ↔ can_start arena.
Proof.
  intros Hord. unfold can_start, CheckCanStartMatch.
  destruct (Z.eqb_spec (MatchState arena) PRE_MATCH) as [Hs|Hs]; simpl.
  - rewrite checkStations_None. split.
    + intros H. split; [done|].
      split; intros k st Hk;
        (assert (Hin : k ∈ order) by (eapply range_order_elem; eauto));
        destruct (proj1 (checkStation_None st) (H k st Hin Hk)) as [He Hr];
        done.
    + intros (_ & He & Hr) k st _ Hk. apply checkStation_None.
      split; [by eapply He|]. intros Hb. by eapply Hr.
  - split; [done|]. by intros [? _].
Qed.

(** X7. When and what [Update] dispatches. A packet is due when the tick
    changes the state to another state than [ENDGAME_PERIOD], or when the
    250 ms since the last packet are over; entering [ENDGAME_PERIOD]
    forces no packet. When a packet is due, [Update] is called once for
    each station with a connection, with [Auto] and [Enabled] given by the
    state after the tick, and [lastDsPacketTime] becomes the clock
    reading. Otherwise no collaborator is called and the stations and
    [lastDsPacketTime] are as before. *)
Theorem Update_dispatch tk arena env :
  let s' := MatchState (Update tk arena env).1 in
  let due := (negb (s' =? MatchState arena) && negb (s' =? ENDGAME_PERIOD))
             || packetPeriodOver tk arena in
  calls (Update tk arena env).2
  = (if due
     then rev (omap (dispatchCall (autoState s') (enabledState s')
                       (AllianceStations arena)) (sendOrder tk))
     else []) ++ calls env
  ∧ (∀ k, AllianceStations (Update tk arena env).1 !! k
          = if due && bool_decide (k ∈ sendOrder tk)
            then dispatchedStation (autoState s') (enabledState s')
                   <$> AllianceStations arena !! k
            else AllianceStations arena !! k)
  ∧ lastDsPacketTime (Update tk arena env).1
    = (if due then nowSent tk else lastDsPacketTime arena)
  ∧ (due = false → (Update tk arena env).2 = env).
Proof.
  pose proof (Update_unfold tk arena env) as H. cbv zeta in H.
  destruct H as (H1 & H2 & H3 & _ & H5). done.
Qed.

(** X8. Robots are enabled only during the match. Every call that
    [Update] makes is an [Update] of the connection of a station; the
    connection is handed over with [Enabled] true only if the state after
    the tick is [AUTO_PERIOD], [TELEOP_PERIOD] or [ENDGAME_PERIOD] and the
    station is neither stopped nor bypassed, and with [Auto] true exactly
    if that state is [PRE_MATCH] or [AUTO_PERIOD]. *)
Theorem Update_enables_in_match tk arena env :
  ∃ new,
    calls (Update tk arena env).2 = new ++ calls env
    ∧ ∀ call, call ∈ new →
        ∃ k st c,
          call = CallUpdate k c
          ∧ AllianceStations arena !! k = Some st
          ∧ is_Some (DsConn st)
          ∧ Auto c = autoState (MatchState (Update tk arena env).1)
          ∧ (Enabled c = true →
               enabledState (MatchState (Update tk arena env).1) = true
               ∧ EmergencyStop st = false ∧ Bypass st = false).
Proof.
  pose proof (Update_unfold tk arena env) as H. cbv zeta in H.
  destruct H as (Hcalls & _).
  eexists. split; [exact Hcalls|].
  intros call Hin. case_match; [|by apply elem_of_nil in Hin].
  apply list_elem_of_In, in_rev, list_elem_of_In in Hin.
  apply list_elem_of_omap in Hin as (k & _ & Hcall).
  unfold dispatchCall in Hcall.
  destruct (AllianceStations arena !! k) as [st|] eqn:Hst; [|done].
  simpl in Hcall. destruct (DsConn st) as [c0|] eqn:Hc; [|done].
  simpl in Hcall. injection Hcall as <-.
  eexists k, st, _.
  split; [reflexivity|]. split; [done|]. split; [by rewrite Hc|]. split; [done|].
  simpl. intros Hen.
  apply andb_prop in Hen as [Hen Hb]. apply andb_prop in Hen as [Hen He].
  by destruct (EmergencyStop st), (Bypass st).
Qed.

(** X9. A tick moves the state by at most one step, and only forward:
    the state after [Update] is the state before or the next one, it
    changes only from [START_MATCH] and the four periods of the match, and
    the start time of the match is written only by the tick that leaves
    [START_MATCH]. *)
Theorem Update_state_step tk arena env :
  let s := MatchState arena in
  let s' := MatchState (Update tk arena env).1 in
  (s' = s ∨ s' = s + 1)
  ∧ (s' ≠ s → START_MATCH ≤ s ≤ ENDGAME_PERIOD)
  ∧ matchStartTime (Update tk arena env).1
    = (if s =? START_MATCH then nowStart tk else matchStartTime arena).
Proof.
  intros s s'.
  assert (Hs' : s' = next_state s (MatchTimeSec (nowMatchTime tk) arena))
    by apply Update_next_state.
  destruct (Update_switch tk arena env) as [_ Ht]. fold s' in Hs'.
  split; [|split].
  - rewrite Hs'. unfold next_state, START_MATCH, AUTO_PERIOD, PAUSE_PERIOD,
      TELEOP_PERIOD, ENDGAME_PERIOD, POST_MATCH.
    repeat match goal with
      | |- context [?a =? ?b] => destruct (Z.eqb_spec a b)
      end;
      repeat case_match; lia.
  - rewrite Hs'. unfold next_state, START_MATCH, AUTO_PERIOD, PAUSE_PERIOD,
      TELEOP_PERIOD, ENDGAME_PERIOD, POST_MATCH.
    repeat match goal with
      | |- context [?a =? ?b] => destruct (Z.eqb_spec a b)
      end;
      repeat case_match; lia.
  - rewrite Ht. clear Ht Hs'. unfold updateState.
    cbn [MatchState set_CanStartMatch matchStartTime]. fold s.
    unfold START_MATCH, AUTO_PERIOD, PAUSE_PERIOD, TELEOP_PERIOD,
      ENDGAME_PERIOD, PRE_MATCH.
    repeat match goal with
      | |- context [?a =? ?b] => destruct (Z.eqb_spec a b)
      end;
      repeat case_match; try lia; reflexivity.
Qed.

(** X10. After a tick, the cached [CanStartMatch] tells whether the match
    could start when the tick began: it is true exactly if the state was
    [PRE_MATCH], no station was stopped and every station not bypassed had
    a linked connection. The dispatch of the tick does not touch it. *)
Theorem Update_CanStartMatch tk arena env :
  range_order (checkOrder tk) arena →
  CanStartMatch (Update tk arena env).1 = true ↔ can_start arena.
Proof.
  intros Hord. rewrite <- (CheckCanStartMatch_None _ _ Hord).
  unfold Update.
  set (arena0 := set_CanStartMatch _ arena).
  pose proof (updateState_spec tk (MatchTimeSec (nowMatchTime tk) arena0) arena0)
    as Hsw.
  cbv zeta in Hsw.
  destruct (updateState tk (MatchTimeSec (nowMatchTime tk) arena0) arena0)
    as [[[arena1 auto] enabled] sendPacket].
  simpl in Hsw. destruct Hsw as (_ & _ & _ & _ & _ & Hcan & _).
  assert (Hfin : ∀ b : bool,
    CanStartMatch
      ((if b then sendDsPacket (sendOrder tk) (nowSent tk) auto enabled arena1
        else ret arena1) env).1 = CanStartMatch arena1).
  { intros [|]; [|done].
    pose proof (sendDsPacketLoop_spec auto enabled (sendOrder tk) arena1 env)
      as H.
    cbv zeta in H. destruct H as (_ & _ & _ & H & _).
    unfold sendDsPacket, bind, ret.
    by destruct (sendDsPacketLoop auto enabled (sendOrder tk) arena1 env). }
  rewrite Hfin, Hcan. subst arena0. simpl.
  by destruct (CheckCanStartMatch (checkOrder tk) arena).
Qed.

End TickingMore.

(** ** The life cycle of a match *)

Section Lifecycle.
Context {C : Collaborators}.

Lemma keeps_stations_refl arena : keeps_stations arena arena.
Proof. split; [by apply stations_related_refl|done]. Qed.

Lemma keeps_stations_trans a1 a2 a3 :
  keeps_stations a1 a2 → keeps_stations a2 a3 → keeps_stations a1 a3.
Proof.
  intros [H1 P1] [H2 P2]. split; [|by auto].
  eapply stations_related_trans; [apply same_flags_trans|done..].
Qed.

Lemma keeps_stations_binding a a' :
  stations_related same_binding a a' → keeps_stations a a'.
Proof.
  intros H. split.
  - intros k. specialize (H k).
    destruct (AllianceStations a !! k), (AllianceStations a' !! k); try done.
    by destruct H as (? & ? & _).
  - intros Hp k st' Hst' Hc. specialize (H k). rewrite Hst' in H.
    destruct (AllianceStations a !! k) as [st|] eqn:Hst; [|done].
    destruct H as (_ & _ & Ht & Hconn). rewrite Ht.
    apply (Hp k st Hst).
    destruct (DsConn st); [by eexists|].
    destruct Hc as [c Hc]. by rewrite Hc in Hconn.
Qed.

Lemma keeps_stations_fields (a a' : Arena) :
  AllianceStations a' = AllianceStations a → keeps_stations a a'.
Proof.
  intros H. split.
  - intros k. rewrite H. by destruct (AllianceStations a !! k).
  - intros Hp k st. rewrite H. apply Hp.
Qed.

Lemma six_stations_related R (a a' : Arena) :
  stations_related R a a' → six_stations a → six_stations a'.
Proof.
  unfold six_stations. intros H <-. apply set_eq. intros k.
  rewrite !elem_of_dom. specialize (H k).
  destruct (AllianceStations a !! k), (AllianceStations a' !! k);
    try done; split; by eauto.
Qed.

Lemma AssignTeam_relates teamId station :
  relates (λ a a', keeps_stations a a' ∧ currentMatch a' = currentMatch a
                   ∧ MatchState a' = MatchState a)
          (AssignTeam teamId station).
Proof.
  intros arena env.
  pose proof (AssignTeam_frame teamId station arena env) as H.
  cbv zeta in H. destruct H as (Hrel & _ & Hp & Hs & Hm & _).
  done.
Qed.

Lemma andThen_relates (R : Arena → Arena → Prop) f g :
  (∀ x y z, R x y → R y z → R x z) →
  relates R f → relates R g → relates R (andThen f g).
Proof.
  intros Htrans Hf Hg arena env. unfold andThen, bind, ret.
  specialize (Hf arena env).
  destruct (f arena env) as [[[e|] arena1] env1]; simpl in *; [done|].
  eapply Htrans; [exact Hf|apply Hg].
Qed.

Lemma kept_trans (x y z : Arena) :
  keeps_stations x y ∧ currentMatch y = currentMatch x
    ∧ MatchState y = MatchState x →
  keeps_stations y z ∧ currentMatch z = currentMatch y
    ∧ MatchState z = MatchState y →
  keeps_stations x z ∧ currentMatch z = currentMatch x
    ∧ MatchState z = MatchState x.
Proof.
  intros (H1 & H2 & H3) (G1 & G2 & G3).
  split; [by eapply keeps_stations_trans|]. split; congruence.
Qed.

Lemma assignEach_relates m keys :
  relates (λ a a', keeps_stations a a' ∧ currentMatch a' = currentMatch a
                   ∧ MatchState a' = MatchState a)
          (assignEach m keys).
Proof.
  induction keys as [|k [|k' rest] IH].
  - intros arena env. simpl. split; [apply keeps_stations_refl|done].
  - apply AssignTeam_relates.
  - change (assignEach m (k :: k' :: rest))
      with (andThen (AssignTeam (teamAt k m) k) (assignEach m (k' :: rest))).
    apply andThen_relates; [apply kept_trans|apply AssignTeam_relates|exact IH].
Qed.

(** [LoadMatch] is the six assignments in the order of [stationKeys]. *)
Lemma LoadMatch_assignEach m arena env :
  MatchState arena = PRE_MATCH →
  LoadMatch m arena env
  = assignEach m stationKeys (set_currentMatch (Some m) arena) env.
Proof.
  intros Hs. unfold LoadMatch. apply Z.eqb_eq in Hs. by rewrite Hs.
Qed.

Lemma LoadMatch_relates m arena env :
  keeps_stations arena (LoadMatch m arena env).1.2
  ∧ MatchState (LoadMatch m arena env).1.2 = MatchState arena
  ∧ (is_Some (currentMatch arena) →
     is_Some (currentMatch (LoadMatch m arena env).1.2)).
Proof.
  destruct (Z.eqb_spec (MatchState arena) PRE_MATCH) as [Hs|Hs].
  - rewrite (LoadMatch_assignEach m arena env Hs).
    destruct (assignEach_relates m stationKeys
                (set_currentMatch (Some m) arena) env) as (Hk & Hm & Hst).
    split.
    { eapply keeps_stations_trans; [|exact Hk]. by apply keeps_stations_fields. }
    split; [done|]. intros _. rewrite Hm. by eexists.
  - unfold LoadMatch. apply Z.eqb_neq in Hs. rewrite Hs. simpl.
    split; [apply keeps_stations_refl|done].
Qed.

Lemma Update_relates tk arena env :
  stations_related same_binding arena (Update tk arena env).1
  ∧ currentMatch (Update tk arena env).1 = currentMatch arena.
Proof.
  pose proof (Update_unfold tk arena env) as H. cbv zeta in H.
  destruct H as (_ & Hk & _ & Hcur & _). split; [|done].
  intros k. rewrite Hk.
  destruct (AllianceStations arena !! k) as [st|];
    destruct (_ && bool_decide _); simpl;
    try done; [apply same_binding_dispatched|apply same_binding_refl].
Qed.

(** The reset of an arena that is not in a match. *)
Lemma ResetMatch_idle arena :
  six_stations arena →
  MatchState arena = POST_MATCH ∨ MatchState arena = PRE_MATCH →
  ∃ arena',
    ResetMatch arena = Some (None, arena')
    ∧ MatchState arena' = PRE_MATCH
    ∧ (∀ k, AllianceStations arena' !! k
            = set_Bypass false <$> AllianceStations arena !! k)
    ∧ currentMatch arena' = currentMatch arena.
Proof.
  intros Hsix Hs. unfold ResetMatch.
  assert (Htest : negb (MatchState arena =? POST_MATCH)
                  && negb (MatchState arena =? PRE_MATCH) = false).
  { destruct Hs as [-> | ->]; reflexivity. }
  rewrite Htest.
  assert (Hsix0 : six_stations (set_MatchState PRE_MATCH arena)) by done.
  repeat
    (rewrite clearBypass_present;
     [simpl mbind
     |apply six_stations_lookup;
      [repeat apply with_station_six; exact Hsix0
      |unfold stationKeys; repeat constructor]]).
  eexists. split; [reflexivity|]. split; [done|]. split; [|done].
  intros k. by apply reset_lookup.
Qed.

Lemma ResetMatch_relates arena r :
  ResetMatch arena = Some r →
  six_stations arena →
  (six_stations r.2 ∧ (paired arena → paired r.2)
   ∧ currentMatch r.2 = currentMatch arena
   ∧ stations_related
       (λ st st', EmergencyStop st' = EmergencyStop st) arena r.2).
Proof.
  intros Hr Hsix.
  destruct (decide (MatchState arena = POST_MATCH ∨ MatchState arena = PRE_MATCH))
    as [Hs|Hs].
  - destruct (ResetMatch_idle arena Hsix Hs) as (arena' & Heq & _ & Hk & Hcur).
    rewrite Heq in Hr. injection Hr as <-. simpl.
    assert (Hrel : stations_related
              (λ st st', EmergencyStop st' = EmergencyStop st) arena arena').
    { intros k. rewrite Hk. by destruct (AllianceStations arena !! k). }
    split; [by eapply six_stations_related|].
    split; [|done].
    intros Hp k st'. rewrite Hk.
    destruct (AllianceStations arena !! k) as [st|] eqn:Hst; [|done].
    simpl. intros [= <-]. simpl. by apply (Hp k st).
  - unfold ResetMatch in Hr.
    assert (Htest : negb (MatchState arena =? POST_MATCH)
                    && negb (MatchState arena =? PRE_MATCH) = true).
    { destruct (Z.eqb_spec (MatchState arena) POST_MATCH); [tauto|].
      destruct (Z.eqb_spec (MatchState arena) PRE_MATCH); [tauto|done]. }
    rewrite Htest in Hr. injection Hr as <-. simpl.
    split; [done|]. split; [done|]. split; [done|].
    by apply stations_related_refl.
Qed.

(** X11. [StartMatch] succeeds exactly when the match can start; a refused
    start leaves the arena as it was. A successful start changes nothing
    but the state, to [START_MATCH], and from there a second start, a load
    and a reset are refused with their match-in-progress errors and change
    nothing, while an abort is accepted. *)
Theorem StartMatch_spec order arena :
  range_order order arena →
  ((StartMatch order arena).1 = None ↔ can_start arena)
  ∧ ((StartMatch order arena).1 ≠ None → (StartMatch order arena).2 = arena)
  ∧ ((StartMatch order arena).1 = None →
       let arena' := (StartMatch order arena).2 in
       arena' = set_MatchState START_MATCH arena
       ∧ (∀ order', StartMatch order' arena' = (Some ErrStartInProgress, arena'))
       ∧ (∀ m env,
            LoadMatch m arena' env = ((Some ErrLoadInProgress, arena'), env))
       ∧ ResetMatch arena' = Some (Some ErrResetInProgress, arena')
       ∧ AbortMatch arena' = (None, set_MatchState POST_MATCH arena')).
Proof.
  intros Hord. rewrite <- (CheckCanStartMatch_None _ _ Hord).
  unfold StartMatch.
  destruct (CheckCanStartMatch order arena) as [e|]; simpl.
  - split; [done|]. split; done.
  - split; [done|]. split; [done|]. intros _. done.
Qed.

(** X12. [AbortMatch] is accepted exactly in the states other than
    [PRE_MATCH] and [POST_MATCH]; it then changes nothing but the state,
    to [POST_MATCH]. From there every tick stays in [POST_MATCH], a second
    abort is refused, and a reset of an arena with its six stations
    returns to [PRE_MATCH]. In [PRE_MATCH] and [POST_MATCH] the abort is
    refused and changes nothing. *)
Theorem AbortMatch_spec arena :
  (MatchState arena ≠ PRE_MATCH → MatchState arena ≠ POST_MATCH →
     let arena' := (AbortMatch arena).2 in
     AbortMatch arena = (None, set_MatchState POST_MATCH arena)
     ∧ AbortMatch arena' = (Some ErrAbortNotInProgress, arena')
     ∧ (∀ tk env, MatchState (Update tk arena' env).1 = POST_MATCH)
     ∧ (six_stations arena →
        ∃ arena'', ResetMatch arena' = Some (None, arena'')
                   ∧ MatchState arena'' = PRE_MATCH))
  ∧ (MatchState arena = PRE_MATCH ∨ MatchState arena = POST_MATCH →
     AbortMatch arena = (Some ErrAbortNotInProgress, arena)).
Proof.
  split.
  - intros H1 H2. unfold AbortMatch.
    apply Z.eqb_neq in H1, H2. rewrite H1, H2. simpl.
    split; [done|]. split; [done|]. split.
    + intros tk env. rewrite Update_next_state. reflexivity.
    + intros Hsix.
      destruct (ResetMatch_idle (set_MatchState POST_MATCH arena))
        as (arena'' & Hr & Hs & _); [done|by left|].
      by exists arena''.
  - intros Hs. unfold AbortMatch. by destruct Hs as [-> | ->].
Qed.

(** X13. [Setup] makes the arena anew, whatever it held: the six stations
    with no team, no connection and both flags false, the state
    [PRE_MATCH] and the test match current. It calls no collaborator: a
    connection held before is dropped without [Close]. The fresh arena is
    well formed and every station with a connection has a team, but the
    match cannot start: the readiness check returns the robots-not-ready
    error, whatever the order of the visit. *)
Theorem Setup_fresh arena (env : Env) :
  let arena' := (Setup arena env).1 in
  (Setup arena env).2 = env
  ∧ AllianceStations arena' = newStations
  ∧ (∀ k, k ∈ stationKeys →
          AllianceStations arena' !! k = Some newAllianceStation)
  ∧ MatchState arena' = PRE_MATCH
  ∧ currentMatch arena' = Some testMatch
  ∧ well_formed arena' ∧ paired arena'
  ∧ (∀ order, range_order order arena' →
       CheckCanStartMatch order arena' = Some ErrRobotsNotReady).
Proof.
  rewrite Setup_spec. simpl.
  assert (Hnew : ∀ k st, newStations !! k = Some st → st = newAllianceStation).
  { intros k st. unfold newStations.
    rewrite !lookup_insert. repeat case_decide; by intros [= <-]. }
  split; [done|]. split; [done|].
  split.
  { intros k Hk. apply stationKeys_elem in Hk.
    destruct Hk as [->|[->|[->|[->|[->| ->]]]]]; reflexivity. }
  split; [done|]. split; [done|].
  split.
  { split; [|by eexists]. apply (Setup_six_stations arena env). }
  split.
  { intros k st Hst [c Hc]. simpl in Hst. apply Hnew in Hst. by subst st. }
  intros order Hord. unfold CheckCanStartMatch. simpl.
  assert (Hin : "R1"%string ∈ order).
  { eapply range_order_elem; [exact Hord|]. by eexists. }
  clear Hord. induction order as [|k rest IH]; [by apply elem_of_nil in Hin|].
  simpl. destruct (newStations !! k) as [st|] eqn:Hst.
  - apply Hnew in Hst. by subst st.
  - apply IH. apply elem_of_cons in Hin as [<-|Hin]; [done|done].
Qed.

End Lifecycle.

(** ** Substitution, the next match, and what all operations keep *)

Section MatchRecordProperties.
Context {C : Collaborators} {S : MatchStore}.

Lemma substituteInMatch_teamAt station teamId m :
  station ∈ stationKeys →
  teamAt station (substituteInMatch station teamId m) = teamId
  ∧ (∀ k, k ≠ station →
       teamAt k (substituteInMatch station teamId m) = teamAt k m)
  ∧ Type_ (substituteInMatch station teamId m) = Type_ m
  ∧ Status (substituteInMatch station teamId m) = Status m.
Proof.
  intros Hk. apply stationKeys_elem in Hk.
  destruct Hk as [->|[->|[->|[->|[->| ->]]]]];
    (split; [reflexivity|]); (split; [|done]);
    intros k Hne; unfold teamAt, substituteInMatch; simpl;
    repeat match goal with
      | |- context [String.eqb k ?x] =>
          destruct (String.eqb_spec k x) as [->|?]
      end; done.
Qed.

(** X14. [SubstituteTeam] is refused, with no call and no change, unless
    the current match is a test or a practice match. Otherwise it assigns
    the team: when [AssignTeam] fails, its error is returned and the match
    record is untouched; when it succeeds, the record gets the number in
    the field of the station, which is the field that [LoadMatch] reads
    for this station, the other five fields, the type and the status being
    as before. With no current match the call panics. *)
Theorem SubstituteTeam_spec teamId station arena env :
  (currentMatch arena = None → SubstituteTeam teamId station arena = None)
  ∧ (∀ cur, currentMatch arena = Some cur →
     ∃ f, SubstituteTeam teamId station arena = Some f
     ∧ (Type_ cur ≠ "test"%string → Type_ cur ≠ "practice"%string →
          f env = ((Some ErrSubstitutionNotAllowed, arena), env))
     ∧ (Type_ cur = "test"%string ∨ Type_ cur = "practice"%string →
          let r := AssignTeam teamId station arena env in
          match r.1.1 with
          | Some err =>
              f env = ((Some (ErrAssignTeam err), r.1.2), r.2)
              ∧ currentMatch r.1.2 = Some cur
          | None =>
              f env
              = ((None,
                  set_currentMatch
                    (Some (substituteInMatch station teamId cur)) r.1.2),
                 r.2)
              ∧ (station ∈ stationKeys →
                 let cur' := substituteInMatch station teamId cur in
                 teamAt station cur' = teamId
                 ∧ (∀ k, k ≠ station → teamAt k cur' = teamAt k cur)
                 ∧ Type_ cur' = Type_ cur ∧ Status cur' = Status cur)
          end)).
Proof.
  split; [intros Hc; unfold SubstituteTeam; by rewrite Hc|].
  intros cur Hc. unfold SubstituteTeam. rewrite Hc.
  eexists. split; [reflexivity|]. split.
  - intros H1 H2. apply String.eqb_neq in H1, H2. by rewrite H1, H2.
  - intros Hty.
    assert (Hok : negb (Type_ cur =? "test")%string
                  && negb (Type_ cur =? "practice")%string = false).
    { destruct Hty as [-> | ->]; reflexivity. }
    rewrite Hok. unfold bind, ret.
    destruct (AssignTeam_assignment teamId station arena env) as (_ & Hm & _).
    destruct (AssignTeam teamId station arena env) as [[[err|] arena'] env'];
      simpl in *.
    + split; [done|congruence].
    + rewrite Hm, Hc. simpl. split; [done|].
      apply substituteInMatch_teamAt.
Qed.

(** The load of the first unplayed match. *)
Lemma loadFirstUnplayed_spec matches arena env :
  loadFirstUnplayed matches arena env
  = match head (filter (λ m, Status m ≠ "complete"%string) matches) with
    | Some m => LoadMatch m arena env
    | None => ((None, arena), env)
    end.
Proof.
  induction matches as [|m rest IH]; simpl; [done|].
  rewrite filter_cons.
  destruct (String.eqb_spec (Status m) "complete") as [Heq|Hne]; simpl.
  - rewrite decide_False by (by intros ?). exact IH.
  - by rewrite decide_True.
Qed.

(** X15. [LoadNextMatch] with a test match current loads the test match
    again. Otherwise it asks the store for the matches of the current
    type: an error of the store is returned with the arena as it was;
    else the first match in the order of the store whose status is not
    complete is loaded by [LoadMatch], whose result is returned; when
    every match is complete, or there is none, nil is returned and the
    arena is as it was, also while a match is in progress. With no
    current match the call panics. *)
Theorem LoadNextMatch_spec arena env :
  (currentMatch arena = None → LoadNextMatch arena = None)
  ∧ (∀ cur, currentMatch arena = Some cur →
     ∃ f, LoadNextMatch arena = Some f
     ∧ (Type_ cur = "test"%string → f env = LoadMatch testMatch arena env)
     ∧ (Type_ cur ≠ "test"%string →
        ∀ matches err w,
          db_GetMatchesByType (Type_ cur) (world env) = ((matches, err), w) →
          f env
          = match err with
            | Some e => ((Some (ErrCollaborator e), arena), mkEnv w (calls env))
            | None =>
                match head (filter (λ m, Status m ≠ "complete"%string) matches) with
                | Some m => LoadMatch m arena (mkEnv w (calls env))
                | None => ((None, arena), mkEnv w (calls env))
                end
            end)).
Proof.
  split; [intros Hc; unfold LoadNextMatch; by rewrite Hc|].
  intros cur Hc. unfold LoadNextMatch. rewrite Hc.
  eexists. split; [reflexivity|]. split.
  - intros ->. reflexivity.
  - intros Hty matches err w Hq. apply String.eqb_neq in Hty. rewrite Hty.
    rewrite Hq. destruct err as [e|]; [done|]. apply loadFirstUnplayed_spec.
Qed.

Lemma SubstituteTeam_relates teamId station arena f env :
  SubstituteTeam teamId station arena = Some f →
  keeps_stations arena (f env).1.2
  ∧ MatchState (f env).1.2 = MatchState arena
  ∧ is_Some (currentMatch (f env).1.2).
Proof.
  unfold SubstituteTeam.
  destruct (currentMatch arena) as [cur|] eqn:Hc; [|done].
  intros [= <-]. case_match.
  - simpl. split; [apply keeps_stations_refl|]. split; [done|].
    rewrite Hc. by eexists.
  - unfold bind, ret.
    destruct (AssignTeam_relates teamId station arena env) as (Hk & Hm & Hs).
    destruct (AssignTeam teamId station arena env) as [[[err|] arena'] env'];
      simpl in *.
    + split; [done|]. split; [done|]. rewrite Hm, Hc. by eexists.
    + split; [|split; [done|]].
      * eapply keeps_stations_trans; [exact Hk|]. by apply keeps_stations_fields.
      * rewrite Hm, Hc. by eexists.
Qed.

Lemma LoadNextMatch_relates arena f env :
  LoadNextMatch arena = Some f →
  keeps_stations arena (f env).1.2
  ∧ MatchState (f env).1.2 = MatchState arena
  ∧ is_Some (currentMatch (f env).1.2).
Proof.
  unfold LoadNextMatch.
  destruct (currentMatch arena) as [cur|] eqn:Hc; [|done].
  assert (Hsome : is_Some (currentMatch arena)) by (rewrite Hc; by eexists).
  intros [= <-]. case_match.
  - destruct (LoadMatch_relates testMatch arena env) as (? & ? & Hcur).
    unfold LoadTestMatch. auto.
  - destruct (db_GetMatchesByType (Type_ cur) (world env)) as [[matches err] w].
    destruct err as [e|]; simpl.
    { split; [apply keeps_stations_refl|done]. }
    rewrite loadFirstUnplayed_spec.
    destruct (head _) as [m|]; simpl.
    + destruct (LoadMatch_relates m arena (mkEnv w (calls env))) as (? & ? & Hcur).
      auto.
    + split; [apply keeps_stations_refl|done].
Qed.

(** X16. The safety flags are written by [ResetMatch] alone, and the
    emergency stop by no operation: [LoadMatch], [SubstituteTeam],
    [LoadNextMatch], [StartMatch], [AbortMatch] and [Update] leave every
    station with the emergency stop and the bypass it had, and add or
    remove no station. *)
Theorem safety_flags_kept arena env k st :
  AllianceStations arena !! k = Some st →
  let kept (arena' : Arena) :=
    ∃ st', AllianceStations arena' !! k = Some st'
           ∧ EmergencyStop st' = EmergencyStop st
           ∧ Bypass st' = Bypass st in
  (∀ m, kept (LoadMatch m arena env).1.2)
  ∧ (∀ teamId station f,
       SubstituteTeam teamId station arena = Some f → kept (f env).1.2)
  ∧ (∀ f, LoadNextMatch arena = Some f → kept (f env).1.2)
  ∧ (∀ order, kept (StartMatch order arena).2)
  ∧ kept (AbortMatch arena).2
  ∧ (∀ tk, kept (Update tk arena env).1).
Proof.
  intros Hst kept.
  assert (Hkept : ∀ arena', keeps_stations arena arena' → kept arena').
  { intros arena' [Hrel _]. unfold kept.
    specialize (Hrel k). rewrite Hst in Hrel.
    destruct (AllianceStations arena' !! k) as [st'|]; [|done].
    destruct Hrel. by exists st'. }
  split. { intros m. apply Hkept, LoadMatch_relates. }
  split.
  { intros teamId station f Hf.
    apply Hkept, (SubstituteTeam_relates teamId station arena f env Hf). }
  split.
  { intros f Hf. apply Hkept, (LoadNextMatch_relates arena f env Hf). }
  split.
  { intros order. apply Hkept, keeps_stations_fields. unfold StartMatch.
    by destruct (CheckCanStartMatch order arena). }
  split.
  { apply Hkept, keeps_stations_fields. unfold AbortMatch. by case_match. }
  intros tk. apply Hkept, keeps_stations_binding, Update_relates.
Qed.

(** X17. No operation panics on an arena that [Setup] and the operations
    have made. [Setup] leaves the arena with its six stations and a
    current match; every operation keeps both; and with both,
    [ResetMatch], [SubstituteTeam] and [LoadNextMatch] dereference no
    nil. *)
Theorem well_formed_kept arena env :
  (∀ arena0, well_formed (Setup arena0 env).1)
  ∧ (well_formed arena →
       (∀ teamId station,
          well_formed (AssignTeam teamId station arena env).1.2)
       ∧ (∀ m, well_formed (LoadMatch m arena env).1.2)
       ∧ (∀ order, well_formed (StartMatch order arena).2)
       ∧ well_formed (AbortMatch arena).2
       ∧ (∀ tk, well_formed (Update tk arena env).1)
       ∧ (∃ r, ResetMatch arena = Some r ∧ well_formed r.2)
       ∧ (∀ teamId station,
            ∃ f, SubstituteTeam teamId station arena = Some f
                 ∧ well_formed (f env).1.2)
       ∧ (∃ f, LoadNextMatch arena = Some f ∧ well_formed (f env).1.2)).
Proof.
  split.
  { intros arena0. split; [apply Setup_six_stations|].
    rewrite Setup_spec. by eexists. }
  intros [Hsix Hcur].
  assert (Hwf : ∀ arena', keeps_stations arena arena' →
                          is_Some (currentMatch arena') → well_formed arena').
  { intros arena' [Hrel _] Hc. split; [|done].
    by eapply six_stations_related. }
  split.
  { intros teamId station.
    destruct (AssignTeam_relates teamId station arena env) as (Hk & Hm & _).
    apply Hwf; [done|]. by rewrite Hm. }
  split.
  { intros m. destruct (LoadMatch_relates m arena env) as (Hk & _ & Hm).
    apply Hwf; auto. }
  split.
  { intros order. unfold StartMatch.
    by destruct (CheckCanStartMatch order arena). }
  split. { unfold AbortMatch. by case_match. }
  split.
  { intros tk. destruct (Update_relates tk arena env) as [Hrel Hm].
    apply Hwf; [by apply keeps_stations_binding|]. by rewrite Hm. }
  split.
  { destruct (ResetMatch arena) as [r|] eqn:Hr.
    - exists r. split; [done|].
      destruct (ResetMatch_relates arena r Hr Hsix) as (? & _ & Hm & _).
      split; [done|]. by rewrite Hm.
    - exfalso. revert Hr. unfold ResetMatch. case_match; [done|].
      assert (Hsix0 : six_stations (set_MatchState PRE_MATCH arena)) by done.
      repeat
        (rewrite clearBypass_present;
         [simpl mbind
         |apply six_stations_lookup;
          [repeat apply with_station_six; exact Hsix0
          |unfold stationKeys; repeat constructor]]).
      done. }
  split.
  { intros teamId station. destruct Hcur as [cur Hc].
    destruct (SubstituteTeam teamId station arena) as [f|] eqn:Hf.
    - exists f. split; [done|].
      destruct (SubstituteTeam_relates _ _ _ f env Hf) as (Hk & _ & Hm).
      by apply Hwf.
    - unfold SubstituteTeam in Hf. by rewrite Hc in Hf. }
  destruct Hcur as [cur Hc].
  destruct (LoadNextMatch arena) as [f|] eqn:Hf.
  - exists f. split; [done|].
    destruct (LoadNextMatch_relates _ f env Hf) as (Hk & _ & Hm).
    by apply Hwf.
  - unfold LoadNextMatch in Hf. by rewrite Hc in Hf.
Qed.

(** X18. A connection never goes without a team. If every station that
    holds a connection holds a team, the same is true after [LoadMatch],
    [SubstituteTeam], [LoadNextMatch], [StartMatch], [AbortMatch],
    [ResetMatch] and [Update]; and it is true after [Setup]. *)
Theorem paired_kept arena env :
  (∀ arena0, paired (Setup arena0 env).1)
  ∧ (paired arena →
       (∀ m, paired (LoadMatch m arena env).1.2)
       ∧ (∀ teamId station f,
            SubstituteTeam teamId station arena = Some f → paired (f env).1.2)
       ∧ (∀ f, LoadNextMatch arena = Some f → paired (f env).1.2)
       ∧ (∀ order, paired (StartMatch order arena).2)
       ∧ paired (AbortMatch arena).2
       ∧ (∀ r, six_stations arena → ResetMatch arena = Some r → paired r.2)
       ∧ (∀ tk, paired (Update tk arena env).1)).
Proof.
  split.
  { intros arena0. rewrite Setup_spec. intros k st Hst [c Hc]. simpl in Hst.
    unfold newStations in Hst. rewrite !lookup_insert in Hst.
    repeat case_decide; simplify_eq; done. }
  intros Hp.
  split. { intros m. by apply LoadMatch_relates. }
  split.
  { intros teamId station f Hf.
    by apply (SubstituteTeam_relates teamId station arena f env Hf). }
  split. { intros f Hf. by apply (LoadNextMatch_relates arena f env Hf). }
  split.
  { intros order. unfold StartMatch.
    by destruct (CheckCanStartMatch order arena). }
  split. { unfold AbortMatch. by case_match. }
  split.
  { intros r Hsix Hr.
    destruct (ResetMatch_relates arena r Hr Hsix) as (_ & H & _). auto. }
  intros tk.
  destruct (keeps_stations_binding arena (Update tk arena env).1) as [_ H];
    [apply Update_relates|auto].
Qed.

End MatchRecordProperties.

(** ** The calls of an assignment, and the load of a match without teams *)

Section AssignmentCalls.
Context {C : Collaborators}.

(** X19. The calls of one [AssignTeam]: at most one [Close], of the
    connection that the slot held for another team, then at most one
    lookup of the team, then at most one construction, and nothing else.
    It never closes twice, never constructs without a lookup, and never
    constructs before it has closed. *)
Theorem AssignTeam_calls teamId station arena env :
  ∃ closes rest,
    calls (AssignTeam teamId station arena env).2 = rest ++ closes ++ calls env
    ∧ (closes = []
       ∨ ∃ st old,
           AllianceStations arena !! station = Some st
           ∧ DsConn st = Some old ∧ TeamId old ≠ teamId
           ∧ closes = [CallClose station old])
    ∧ (rest = []
       ∨ teamId ≠ 0
         ∧ (rest = [CallGetTeamById teamId]
            ∨ ∃ t, rest = [CallNewDriverStationConnection (Id t) station;
                           CallGetTeamById teamId])).
Proof.
  assert (Hload : ∀ a e,
    ∃ rest,
      calls (AssignTeam_load teamId station a e).2 = rest ++ calls e
      ∧ (rest = []
         ∨ teamId ≠ 0
           ∧ (rest = [CallGetTeamById teamId]
              ∨ ∃ t, rest = [CallNewDriverStationConnection (Id t) station;
                             CallGetTeamById teamId]))).
  { intros a e. unfold AssignTeam_load, bind, ret.
    destruct (Z.eqb_spec teamId 0) as [Hz|Hz]; [exists []; by split; [|left]|].
    unfold call_GetTeamById.
    destruct (db_GetTeamById teamId (world e)) as [[[t|] [msg|]] w]; simpl;
      try (exists [CallGetTeamById teamId]; split; [done|right; by eauto]).
    unfold call_NewDriverStationConnection. simpl.
    destruct (NewDriverStationConnection (Id t) station w) as [[c [msg|]] w'];
      simpl;
      (exists [CallNewDriverStationConnection (Id t) station;
               CallGetTeamById teamId];
       split; [done|right; split; [done|right; by eexists]]). }
  unfold AssignTeam.
  destruct (AllianceStations arena !! station) as [st|] eqn:Hst;
    [|exists [], []; by split; [|split; left]].
  destruct (DsConn st) as [old|] eqn:Hc.
  - destruct (Z.eqb_spec (TeamId old) teamId) as [Hsame|Hother];
      [exists [], []; by split; [|split; left]|].
    unfold bind, call_Close.
    destruct (ds_Close old (world env)) as [[msg|] w]; simpl.
    + exists [CallClose station old], []. split; [done|].
      split; [right; by exists st, old|by left].
    + match goal with |- context [AssignTeam_load _ _ ?a ?e] =>
        destruct (Hload a e) as (rest & Hcalls & Hrest) end.
      exists [CallClose station old], rest. split; [exact Hcalls|].
      split; [right; by exists st, old|done].
  - destruct (Hload arena env) as (rest & Hcalls & Hrest).
    exists [], rest. split; [exact Hcalls|]. split; [by left|done].
Qed.

(** One assignment of no team, with connections that close. *)
Lemma AssignTeam_zero_step k arena env st :
  (∀ c w, (ds_Close c w).1 = None) →
  AllianceStations arena !! k = Some st →
  (∀ c, DsConn st = Some c → TeamId c ≠ 0) →
  ∃ arena' env',
    AssignTeam 0 k arena env = ((None, arena'), env')
    ∧ (∀ k', AllianceStations arena' !! k'
             = if decide (k' = k) then emptied <$> AllianceStations arena !! k'
               else AllianceStations arena !! k')
    ∧ calls env' = option_list (closeCall (AllianceStations arena) k) ++ calls env
    ∧ MatchState arena' = MatchState arena
    ∧ currentMatch arena' = currentMatch arena.
Proof.
  intros Hclose Hst Hteam. unfold AssignTeam, closeCall. rewrite Hst. simpl.
  destruct (DsConn st) as [c|] eqn:Hc; simpl.
  - specialize (Hteam c eq_refl). apply Z.eqb_neq in Hteam. rewrite Hteam.
    unfold bind, call_Close. specialize (Hclose c (world env)).
    destruct (ds_Close c (world env)) as [r w]. simpl in Hclose. subst r.
    cbn [fst snd]. unfold AssignTeam_load. cbn [Z.eqb]. unfold ret.
    eexists _, _. split; [reflexivity|]. split; [|done].
    intros k'. case_decide as Hk.
    + subst k'. rewrite !with_station_lookup, Hst. simpl.
      unfold emptied. by rewrite Hc.
    + by rewrite !with_station_lookup_ne.
  - eexists _, _. split; [reflexivity|]. split; [|done].
    intros k'. case_decide as Hk; [|done]. subst k'. rewrite Hst. simpl.
    unfold emptied. by rewrite Hc.
Qed.

Lemma closeCall_other (m m' : gmap string AllianceStation) (k' : string) :
  m' !! k' = m !! k' → closeCall m' k' = closeCall m k'.
Proof. unfold closeCall. by intros ->. Qed.

(** The assignments of a match without teams. *)
Lemma assignEach_no_teams m keys arena env :
  (∀ c w, (ds_Close c w).1 = None) →
  NoDup keys →
  (∀ k, k ∈ keys →
     teamAt k m = 0
     ∧ ∃ st, AllianceStations arena !! k = Some st
             ∧ ∀ c, DsConn st = Some c → TeamId c ≠ 0) →
  ∃ arena' env',
    assignEach m keys arena env = ((None, arena'), env')
    ∧ (∀ k, AllianceStations arena' !! k
            = if decide (k ∈ keys) then emptied <$> AllianceStations arena !! k
              else AllianceStations arena !! k)
    ∧ calls env'
      = rev (omap (closeCall (AllianceStations arena)) keys) ++ calls env
    ∧ MatchState arena' = MatchState arena
    ∧ currentMatch arena' = currentMatch arena.
Proof.
  intros Hclose. revert arena env.
  induction keys as [|k [|k2 rest] IH]; intros arena env Hnd Hkeys.
  - simpl. eexists _, _. split; [reflexivity|]. split; [|done].
    intros k.
    destruct (decide (k ∈ [])) as [Hin|_]; [by apply elem_of_nil in Hin|done].
  - destruct (Hkeys k) as (Hz & st & Hst & Hteam); [apply list_elem_of_here|].
    simpl. rewrite Hz.
    destruct (AssignTeam_zero_step k arena env st Hclose Hst Hteam)
      as (arena' & env' & Heq & Hk & Hcalls & Hs & Hm).
    exists arena', env'. split; [done|]. split.
    + intros k'. rewrite Hk.
      destruct (decide (k' = k)) as [->|Hne].
      * by rewrite decide_True by apply list_elem_of_here.
      * rewrite decide_False; [done|]. by intros ?%list_elem_of_singleton.
    + split; [|done]. rewrite Hcalls. csimpl.
      by destruct (closeCall (AllianceStations arena) k).
  - destruct (Hkeys k) as (Hz & st & Hst & Hteam); [apply list_elem_of_here|].
    change (assignEach m (k :: k2 :: rest))
      with (andThen (AssignTeam (teamAt k m) k) (assignEach m (k2 :: rest))).
    unfold andThen, bind. rewrite Hz.
    destruct (AssignTeam_zero_step k arena env st Hclose Hst Hteam)
      as (arena1 & env1 & Heq & Hk & Hcalls & Hs & Hm).
    rewrite Heq. apply NoDup_cons in Hnd as [Hnotin Hnd].
    assert (Hsame : ∀ k', k' ∈ k2 :: rest →
              AllianceStations arena1 !! k' = AllianceStations arena !! k').
    { intros k' Hin. rewrite Hk. rewrite decide_False; [done|].
      by intros ->. }
    destruct (IH arena1 env1 Hnd) as (arena' & env' & Heq' & Hk' & Hcalls' & Hs' & Hm').
    { intros k' Hin. destruct (Hkeys k') as (Hz' & st' & Hst' & Hteam');
        [by apply list_elem_of_further|].
      split; [done|]. exists st'. by rewrite Hsame. }
    rewrite Heq'. exists arena', env'. split; [done|]. split; [|split].
    + intros k'. rewrite Hk', Hk.
      destruct (decide (k' = k)) as [->|Hne].
      * rewrite (decide_False (P := k ∈ k2 :: rest)) by done.
        by rewrite (decide_True (P := k ∈ k :: k2 :: rest))
          by apply list_elem_of_here.
      * destruct (decide (k' ∈ k2 :: rest)) as [Hin|Hin].
        -- by rewrite (decide_True (P := k' ∈ k :: k2 :: rest))
             by (by apply list_elem_of_further).
        -- rewrite (decide_False (P := k' ∈ k :: k2 :: rest)); [done|].
           by intros [?|?]%elem_of_cons.
    + rewrite Hcalls', Hcalls.
      assert (Hom : omap (closeCall (AllianceStations arena1)) (k2 :: rest)
                    = omap (closeCall (AllianceStations arena)) (k2 :: rest)).
      { clear -Hsame. induction (k2 :: rest) as [|x l IHl]; [done|]. csimpl.
        rewrite (closeCall_other (AllianceStations arena) (AllianceStations arena1))
          by (apply Hsame, list_elem_of_here).
        rewrite IHl; [done|]. intros k' Hin. by apply Hsame, list_elem_of_further. }
      rewrite Hom. set (l := k2 :: rest). csimpl.
      destruct (closeCall (AllianceStations arena) k) as [call|]; simpl; [|done].
      by rewrite <- (assoc_L (++)).
    + split; congruence.
Qed.

(** X20. Loading a match without teams empties the arena. In [PRE_MATCH],
    on an arena with its six stations whose connections are for nonzero
    teams and close without error, [LoadMatch] of a match whose six team
    numbers are 0, the test match for one, returns nil and makes the match
    current; every station that held a connection has neither team nor
    connection afterwards, the others and all flags are as before, and the
    calls are one [Close] for each connection, in the order R1, R2, R3,
    B1, B2, B3. *)
Theorem LoadMatch_no_teams m arena env :
  (∀ c w, (ds_Close c w).1 = None) →
  six_stations arena →
  MatchState arena = PRE_MATCH →
  (∀ k, k ∈ stationKeys → teamAt k m = 0) →
  (∀ k st c, AllianceStations arena !! k = Some st →
             DsConn st = Some c → TeamId c ≠ 0) →
  ∃ arena' env',
    LoadMatch m arena env = ((None, arena'), env')
    ∧ currentMatch arena' = Some m
    ∧ MatchState arena' = PRE_MATCH
    ∧ (∀ k, AllianceStations arena' !! k = emptied <$> AllianceStations arena !! k)
    ∧ (∀ k st', AllianceStations arena' !! k = Some st' → DsConn st' = None)
    ∧ calls env'
      = rev (omap (closeCall (AllianceStations arena)) stationKeys) ++ calls env.
Proof.
  intros Hclose Hsix Hs Hzero Hteams.
  rewrite (LoadMatch_assignEach m arena env Hs).
  destruct (assignEach_no_teams m stationKeys
              (set_currentMatch (Some m) arena) env Hclose)
    as (arena' & env' & Heq & Hk & Hcalls & Hs' & Hm).
  { unfold stationKeys. apply (bool_decide_unpack _). vm_compute. reflexivity. }
  { intros k Hin. split; [by apply Hzero|].
    destruct (six_stations_lookup arena k Hsix Hin) as [st Hst].
    exists st. split; [done|]. intros c. by apply (Hteams k). }
  exists arena', env'. split; [done|]. split; [done|].
  split; [by rewrite Hs'|].
  assert (Hall : ∀ k, AllianceStations arena' !! k
                      = emptied <$> AllianceStations arena !! k).
  { intros k. rewrite Hk. simpl. case_decide as Hin; [done|].
    by rewrite (six_stations_absent arena k Hsix). }
  split; [done|]. split; [|done].
  intros k st'. rewrite Hall.
  destruct (AllianceStations arena !! k) as [st|]; [|done].
  simpl. intros [= <-]. unfold emptied. by destruct (DsConn st) eqn:Hc.
Qed.

End AssignmentCalls.

(** ** The further properties at concrete arenas *)

(** X3, at a station bound to team 254 to which team 1114 is assigned. *)
Lemma AssignTeam_binds_witness :
  let st := boundTo 254 true in
  let arena :=
    arenaWith st newAllianceStation newAllianceStation
              newAllianceStation newAllianceStation newAllianceStation
              PRE_MATCH in
  let w := mkSim [254; 1114] false false in
  ∃ arena',
    AssignTeam (C:=sim) 1114 "R1" arena (simEnv w)
    = ((None, arena'),
       @mkEnv sim w
         (CallNewDriverStationConnection (Id (mkTeam 1114)) "R1"
          :: CallGetTeamById 1114
          :: match DsConn st with
             | Some old => [CallClose "R1" old]
             | None => []
             end ++ calls (simEnv w)))
    ∧ AllianceStations arena' !! "R1"
      = Some {| DsConn := Some (mkConn 1114 false false (mkStatus false));
                EmergencyStop := EmergencyStop st;
                Bypass := Bypass st; team := Some (mkTeam 1114) |}
    ∧ (∀ k, k ≠ "R1"%string →
         AllianceStations arena' !! k = AllianceStations arena !! k).
Proof.
  intros st arena w.
  apply (AssignTeam_binds (C:=sim) 1114 "R1" arena (simEnv w) st w
           (mkTeam 1114) w (mkConn 1114 false false (mkStatus false)) w).
  - vm_compute. reflexivity.
  - lia.
  - simpl. split; [lia|reflexivity].
  - vm_compute. reflexivity.
  - reflexivity.
Defined.

(** X4, at a station bound to team 254 to which the unknown team 9999 is
    assigned. *)
Lemma AssignTeam_lookup_fails_witness :
  let st := boundTo 254 true in
  let arena :=
    arenaWith st newAllianceStation newAllianceStation
              newAllianceStation newAllianceStation newAllianceStation
              PRE_MATCH in
  let w := mkSim [254; 1114] false false in
  ∃ arena',
    AssignTeam (C:=sim) 9999 "R1" arena (simEnv w)
    = ((Some (ErrInvalidTeam 9999), arena'),
       @mkEnv sim w [CallGetTeamById 9999; CallClose "R1" (connFor 254 true)])
    ∧ AllianceStations arena' !! "R1" = Some (released st)
    ∧ (∀ k, k ≠ "R1"%string →
         AllianceStations arena' !! k = AllianceStations arena !! k).
Proof.
  intros st arena w.
  apply (AssignTeam_lookup_fails (C:=sim) 9999 "R1" arena (simEnv w) st
           (connFor 254 true) w (None, None) w).
  - vm_compute. reflexivity.
  - reflexivity.
  - simpl. lia.
  - lia.
  - reflexivity.
  - vm_compute. reflexivity.
  - left. reflexivity.
Defined.

(** X5, at an empty station to which team 254 is assigned twice. *)
Lemma AssignTeam_again_witness :
  let arena := emptyArena PRE_MATCH in
  let env := simEnv (mkSim [254] false false) in
  let r := AssignTeam (C:=sim) 254 "R1" arena env in
  r.1.1 = None
  ∧ AssignTeam (C:=sim) 254 "R1" r.1.2 r.2 = ((None, r.1.2), r.2).
Proof.
  intros arena env r.
  assert (Hr : r = ((None, r.1.2), r.2)) by (vm_compute; reflexivity).
  split; [vm_compute; reflexivity|].
  apply (AssignTeam_again (C:=sim) 254 "R1" arena env r.1.2 r.2).
  - intros id w t e w'. simpl. case_bool_decide; by intros [= <- <- <-].
  - intros id k w c w'. simpl. destruct (simDialFails w); [done|].
    intros [= <- <-]. by eexists.
  - lia.
  - exact Hr.
Defined.

(** X10, at an arena in [PRE_MATCH] whose six stations are bypassed. *)
Lemma Update_CanStartMatch_witness :
  CanStartMatch
    (Update (C:=sim) (tickAt 1000) (bypassedArena PRE_MATCH)
       (simEnv (mkSim [] false false))).1 = true
  ↔ can_start (bypassedArena PRE_MATCH).
Proof.
  apply (Update_CanStartMatch (C:=sim)).
  unfold range_order. apply (bool_decide_unpack _). vm_compute. reflexivity.
Defined.

(** X11, at an arena in [PRE_MATCH] whose six stations are bypassed. *)
Lemma StartMatch_spec_witness :
  let arena := bypassedArena PRE_MATCH in
  ((StartMatch stationKeys arena).1 = None ↔ can_start arena)
  ∧ ((StartMatch stationKeys arena).1 ≠ None →
     (StartMatch stationKeys arena).2 = arena)
  ∧ ((StartMatch stationKeys arena).1 = None →
       let arena' := (StartMatch stationKeys arena).2 in
       arena' = set_MatchState START_MATCH arena
       ∧ (∀ order', StartMatch order' arena' = (Some ErrStartInProgress, arena'))
       ∧ (∀ m (env : @Env sim),
            LoadMatch m arena' env = ((Some ErrLoadInProgress, arena'), env))
       ∧ ResetMatch arena' = Some (Some ErrResetInProgress, arena')
       ∧ AbortMatch arena' = (None, set_MatchState POST_MATCH arena')).
Proof.
  intros arena.
  apply (StartMatch_spec (C:=sim) stationKeys arena).
  unfold range_order. apply (bool_decide_unpack _). vm_compute. reflexivity.
Defined.

(** X16, at the stopped station R2 of an arena in [TELEOP_PERIOD]. *)
Lemma safety_flags_kept_witness :
  let arena :=
    arenaWith (boundTo 254 true) stopped bypassed bypassed bypassed bypassed
              TELEOP_PERIOD in
  let env := simEnv (mkSim [254] false false) in
  ∃ st', AllianceStations
           (Update (C:=sim) (tickAt 1000) arena env).1 !! "R2" = Some st'
         ∧ EmergencyStop st' = true ∧ Bypass st' = false.
Proof.
  intros arena env.
  assert (Hst : AllianceStations arena !! "R2" = Some stopped)
    by (vm_compute; reflexivity).
  destruct (safety_flags_kept (C:=sim) (S:=simStore [] false)
              arena env "R2" stopped Hst) as (_ & _ & _ & _ & _ & H).
  exact (H (tickAt 1000)).
Defined.

(** X20, at the load of the test match on an arena whose stations R1 and
    B2 hold connections. *)
Lemma LoadMatch_no_teams_witness :
  let arena :=
    arenaWith (boundTo 254 true) newAllianceStation newAllianceStation
              newAllianceStation (boundTo 1114 false) newAllianceStation
              PRE_MATCH in
  let env := @mkEnv simClosing (mkSim [254; 1114] false false) [] in
  ∃ arena' env',
    LoadMatch (C:=simClosing) testMatch arena env = ((None, arena'), env')
    ∧ currentMatch arena' = Some testMatch
    ∧ MatchState arena' = PRE_MATCH
    ∧ (∀ k, AllianceStations arena' !! k = emptied <$> AllianceStations arena !! k)
    ∧ (∀ k st', AllianceStations arena' !! k = Some st' → DsConn st' = None)
    ∧ calls env'
      = rev (omap (closeCall (AllianceStations arena)) stationKeys) ++ calls env.
Proof.
  intros arena env.
  apply (LoadMatch_no_teams (C:=simClosing) testMatch arena env).
  - intros c w. reflexivity.
  - unfold six_stations. apply (bool_decide_unpack _). vm_compute. reflexivity.
  - reflexivity.
  - intros k Hk. apply stationKeys_elem in Hk.
    destruct Hk as [->|[->|[->|[->|[->| ->]]]]]; reflexivity.
  - intros k st c Hst Hc.
    assert (Hk : k ∈ stationKeys).
    { destruct (decide (k ∈ stationKeys)) as [?|Hn]; [done|].
      rewrite (six_stations_absent arena k) in Hst; [done| |done].
      unfold six_stations. apply (bool_decide_unpack _). vm_compute. reflexivity. }
    apply stationKeys_elem in Hk.
    destruct Hk as [->|[->|[->|[->|[->| ->]]]]];
      vm_compute in Hst; injection Hst as <-; simpl in Hc;
      try discriminate; injection Hc as <-; simpl; lia.
Defined.
